(** * GMeet-Attendance: the chat parser and the attendance ledger of content.js

    A shallow embedding of [src/content.js]: the e-mail pattern and the
    name heuristic of [parseCandidateNode], the ledger kept in
    [window.gmeetState], its control functions and the CSV export. *)

From Stdlib Require Import String Ascii.
From Stdlib Require Import List NArith ZArith Lia Bool Arith.
Import ListNotations.

Set Implicit Arguments.

(** ** JavaScript strings

    A JavaScript string is a sequence of UTF-16 code units; [length] counts
    code units and regular expressions without the [u] flag work on them. *)

Definition char := N.
Definition jsstring := list char.

Definition chr (a : ascii) : char := N_of_ascii a.
Definition str (s : string) : jsstring := map N_of_ascii (list_ascii_of_string s).

(** The double quote and the line feed. *)
Definition dquote : char := 34%N.
Definition newline : char := 10%N.

Module JSString.

Local Open Scope N_scope.

Definition in_range (lo hi c : char) : bool := (lo <=? c) && (c <=? hi).

Definition is_upper (c : char) : bool := in_range 65 90 c.

(** ECMAScript WhiteSpace and LineTerminator code points, the set that
    [String.prototype.trim] removes. *)
Definition is_space (c : char) : bool :=
  in_range 9 13 c
  || N.eqb c 32 || N.eqb c 160 || N.eqb c 5760
  || in_range 8192 8202 c
  || N.eqb c 8232 || N.eqb c 8233 || N.eqb c 8239 || N.eqb c 8287
  || N.eqb c 12288 || N.eqb c 65279.

Local Close Scope N_scope.

Fixpoint dropWhile (p : char -> bool) (s : jsstring) : jsstring :=
  match s with
  | c :: s' => if p c then dropWhile p s' else s
  | [] => []
  end.

Definition dropWhileEnd (p : char -> bool) (s : jsstring) : jsstring :=
  rev (dropWhile p (rev s)).

Fixpoint takeWhile (p : char -> bool) (s : jsstring) : jsstring :=
  match s with
  | c :: s' => if p c then c :: takeWhile p s' else []
  | [] => []
  end.

(** [s.trim()] *)
Definition trim (s : jsstring) : jsstring :=
  dropWhileEnd is_space (dropWhile is_space s).

(** [s.startsWith(pat)] *)
Fixpoint startsWith (pat s : jsstring) : bool :=
  match pat, s with
  | [], _ => true
  | p :: pat', c :: s' => N.eqb p c && startsWith pat' s'
  | _ :: _, [] => false
  end.

(** [s.includes(pat)] *)
Fixpoint includes (pat s : jsstring) : bool :=
  startsWith pat s ||
  match s with
  | [] => false
  | _ :: s' => includes pat s'
  end.

(** [s.replace(pat, by)] with a string pattern: the first occurrence of
    [pat] only.  The replacement strings of content.js contain no [$]. *)
Fixpoint replace (pat by_ s : jsstring) : jsstring :=
  if startsWith pat s then by_ ++ skipn (length pat) s
  else match s with
       | [] => []
       | c :: s' => c :: replace pat by_ s'
       end.

(** [s.toLowerCase()] on the Basic Latin letters.  content.js applies it
    to a match of [EMAIL_REGEX] only, whose code units are all below 128
    (lemma [email_match_ascii] below). *)
Definition lower_char (c : char) : char :=
  if is_upper c then (c + 32)%N else c.

Definition toLowerCase (s : jsstring) : jsstring := map lower_char s.

(** [s.split(sep)[0]] for a one-unit separator. *)
Definition split_head (sep : char) (s : jsstring) : jsstring :=
  takeWhile (fun c => negb (N.eqb c sep)) s.

(** [parts.join(sep)] *)
Fixpoint join (sep : jsstring) (parts : list jsstring) : jsstring :=
  match parts with
  | [] => []
  | [p] => p
  | p :: rest => p ++ sep ++ join sep rest
  end.

(** [s.padStart(n, pad)] for a one-unit [pad]. *)
Definition padStart (n : nat) (pad : char) (s : jsstring) : jsstring :=
  repeat pad (n - length s) ++ s.

End JSString.

(** ** Regular expressions

    The fragment of the JavaScript pattern language that content.js is
    written in: character classes, plain and negated, greedy repetition of
    a class with a lower bound, concatenation, and at the top of a pattern
    alternatives that may start with [^] or end with [$].  The matcher is
    the backtracking one of the language definition: a repetition takes as
    many code units as it can and gives them back one at a time while the
    rest of the pattern fails. *)

Module Regex.

Inductive item :=
| Range (lo hi : ascii)
| Single (c : ascii).

Definition class := list item.

Definition item_mem (i : item) (c : char) : bool :=
  match i with
  | Range lo hi => JSString.in_range (chr lo) (chr hi) c
  | Single a => N.eqb c (chr a)
  end.

Definition mem (cls : class) (c : char) : bool :=
  existsb (fun i => item_mem i c) cls.

Inductive regex :=
| Chars (cls : class)
| NotChars (cls : class)
| Rep (min : nat) (cls : class)
| Seq (r1 r2 : regex).

(** Greedy [cls{min,}] followed by the continuation [k]; the result is the
    number of code units matched from [s] on. *)
Fixpoint rep (p : char -> bool) (min : nat) (s : jsstring)
         (k : jsstring -> option nat) : option nat :=
  match s with
  | c :: s' =>
      if p c then
        match rep p (pred min) s' k with
        | Some n => Some (S n)
        | None => if Nat.eqb min 0 then k s else None
        end
      else if Nat.eqb min 0 then k s else None
  | [] => if Nat.eqb min 0 then k s else None
  end.

Fixpoint rmatch (r : regex) (s : jsstring)
         (k : jsstring -> option nat) : option nat :=
  match r with
  | Chars cls =>
      match s with
      | c :: s' => if mem cls c then option_map S (k s') else None
      | [] => None
      end
  | NotChars cls =>
      match s with
      | c :: s' => if mem cls c then None else option_map S (k s')
      | [] => None
      end
  | Rep min cls => rep (mem cls) min s k
  | Seq r1 r2 => rmatch r1 s (fun s' => rmatch r2 s' k)
  end.

(** A match that starts at the first code unit of [s]: its length. *)
Definition match_at (r : regex) (s : jsstring) : option nat :=
  rmatch r s (fun _ => Some 0).

(** [r.exec(s)]: the leftmost start index with a match, and its length. *)
Fixpoint exec (r : regex) (s : jsstring) : option (nat * nat) :=
  match match_at r s with
  | Some n => Some (0, n)
  | None =>
      match s with
      | [] => None
      | _ :: s' =>
          match exec r s' with
          | Some (i, n) => Some (S i, n)
          | None => None
          end
      end
  end.

(** [r.test(s)] *)
Definition test (r : regex) (s : jsstring) : bool :=
  match exec r s with Some _ => true | None => false end.

(** [s.match(r)[0]] for a pattern without the [g] flag. *)
Definition match_ (r : regex) (s : jsstring) : option jsstring :=
  match exec r s with
  | Some (i, n) => Some (firstn n (skipn i s))
  | None => None
  end.

(** One alternative of a pattern: a sequence, with [^] in front of it and
    [$] behind it as the flags say. *)
Record alternative := {
  from_start : bool;
  body : regex;
  to_end : bool
}.

Definition pattern := list alternative.

(** [bol] tells whether [s] starts at index 0 of the input. *)
Definition match_alternative (a : alternative) (bol : bool)
           (s : jsstring) : option nat :=
  if from_start a && negb bol then None
  else rmatch (body a) s
              (fun rest =>
                 if to_end a
                 then match rest with [] => Some 0 | _ :: _ => None end
                 else Some 0).

(** The alternatives are tried in the order they are written. *)
Fixpoint match_pattern (p : pattern) (bol : bool) (s : jsstring) : option nat :=
  match p with
  | [] => None
  | a :: p' =>
      match match_alternative a bol s with
      | Some n => Some n
      | None => match_pattern p' bol s
      end
  end.

(** [s.replace(p, by)] for a pattern with the [g] flag and a replacement
    without [$]: the matches are taken from left to right, each search
    starting where the previous match ended; after an empty match the scan
    moves on by one code unit.  [fuel] bounds the number of steps. *)
Fixpoint replace_all_from (fuel : nat) (p : pattern) (by_ : jsstring)
         (bol : bool) (s : jsstring) : jsstring :=
  match fuel with
  | O => s
  | S fuel' =>
      match match_pattern p bol s with
      | Some (S n) =>
          by_ ++ replace_all_from fuel' p by_ false (skipn (S n) s)
      | Some O =>
          by_ ++ match s with
                 | [] => []
                 | c :: s' => c :: replace_all_from fuel' p by_ false s'
                 end
      | None =>
          match s with
          | [] => []
          | c :: s' => c :: replace_all_from fuel' p by_ false s'
          end
      end
  end.

Definition replace_all (p : pattern) (by_ : jsstring) (s : jsstring) : jsstring :=
  replace_all_from (S (length s)) p by_ true s.

End Regex.

Import JSString Regex.

(** ** content.js *)

(** [/([a-zA-Z0-9._%+-]+@[a-zA-Z0-9.-]+\.[a-zA-Z]{2,})/]; the one group
    spans the whole pattern, so [m[1]] is [m[0]]. *)
Definition local_class : class :=
  [Range "a" "z"; Range "A" "Z"; Range "0" "9";
   Single "."; Single "_"; Single "%"; Single "+"; Single "-"]%char.

Definition domain_class : class :=
  [Range "a" "z"; Range "A" "Z"; Range "0" "9"; Single "."; Single "-"]%char.

Definition alpha_class : class := [Range "a" "z"; Range "A" "Z"]%char.

Definition EMAIL_REGEX : regex :=
  Seq (Rep 1 local_class)
      (Seq (Chars [Single "@"%char])
           (Seq (Rep 1 domain_class)
                (Seq (Chars [Single "."%char])
                     (Rep 2 alpha_class)))).

(** A DOM element as the parser sees it: its [innerText] (the empty string
    also stands for a missing one: both are falsy and the script reads
    either as the empty text) and its [parentElement]. *)
Inductive Node :=
| Detached (text : jsstring)
| Child (text : jsstring) (parent : Node).

Definition innerText (n : Node) : jsstring :=
  match n with Detached t | Child t _ => t end.

Definition parentElement (n : Node) : option Node :=
  match n with Detached _ => None | Child _ p => Some p end.

(** [/^[-:;,|]+|[-:;,|]+$/g] *)
Definition separator_class : class :=
  [Single "-"; Single ":"; Single ";"; Single ","; Single "|"]%char.

Definition SEPARATOR_REGEX : pattern :=
  [ {| from_start := true; body := Rep 1 separator_class; to_end := false |};
    {| from_start := false; body := Rep 1 separator_class; to_end := true |} ].

(** The loop [for (let i = 0; i < 3 && current; i++)] of
    [parseCandidateNode]; [fuel] is [3 - i].  The result is [nameRaw] when
    the loop ends ([fullText] is assigned but never read afterwards). *)
Fixpoint widen (fuel : nat) (current : option Node)
         (email match0 nameRaw : jsstring) : jsstring :=
  match fuel, current with
  | S fuel', Some parent =>
      let parentText := innerText parent in
      let up := parentElement parent in
      if includes email parentText then
        let potentialName := trim (replace match0 [] parentText) in
        if Nat.ltb (length nameRaw) (length potentialName) then
          if Nat.ltb 2 (length potentialName) then potentialName
          else widen fuel' up email match0 potentialName
        else widen fuel' up email match0 nameRaw
      else widen fuel' up email match0 nameRaw
  | _, _ => nameRaw
  end.

(** The computation of [parseCandidateNode] up to the call of
    [recordAttendance]: the [(name, email)] it records, or nothing. *)
Definition extract (node : Node) : option (jsstring * jsstring) :=
  let text := innerText node in
  match match_ EMAIL_REGEX text with
  | None => None
  | Some emailMatch =>
      let email := toLowerCase emailMatch in
      let nameRaw := trim (replace emailMatch [] text) in
      let nameRaw :=
        if Nat.ltb (length nameRaw) 2
        then widen 3 (parentElement node) email emailMatch nameRaw
        else nameRaw in
      let nameRaw := trim (replace_all SEPARATOR_REGEX [] nameRaw) in
      let name :=
        match nameRaw with
        | [] => split_head (chr "@") email
        | _ => nameRaw
        end in
      Some (name, email)
  end.

(** A leaf fragment with the texts of its ancestors, closest first. *)
Fixpoint fragment (text : jsstring) (ancestors : list jsstring) : Node :=
  match ancestors with
  | [] => Detached text
  | t :: up => Child text (fragment t up)
  end.

(** *** Numbers and dates *)

Fixpoint uint_chars (u : Decimal.uint) : jsstring :=
  match u with
  | Decimal.Nil => []
  | Decimal.D0 u => chr "0" :: uint_chars u
  | Decimal.D1 u => chr "1" :: uint_chars u
  | Decimal.D2 u => chr "2" :: uint_chars u
  | Decimal.D3 u => chr "3" :: uint_chars u
  | Decimal.D4 u => chr "4" :: uint_chars u
  | Decimal.D5 u => chr "5" :: uint_chars u
  | Decimal.D6 u => chr "6" :: uint_chars u
  | Decimal.D7 u => chr "7" :: uint_chars u
  | Decimal.D8 u => chr "8" :: uint_chars u
  | Decimal.D9 u => chr "9" :: uint_chars u
  end.

(** [String(z)] for an integer-valued number. *)
Definition String_ (z : Z) : jsstring :=
  match Z.to_int z with
  | Decimal.Pos u => uint_chars u
  | Decimal.Neg u => chr "-" :: uint_chars u
  end.

(** What content.js reads from a [Date]: the local calendar fields, the
    epoch milliseconds, and the text that the host's
    [toLocaleTimeString([], {hour: '2-digit', minute: '2-digit', hour12: true})]
    gives for it. *)
Record JSDate := {
  getDate : Z;
  getMonth : Z;
  getFullYear : Z;
  getHours : Z;
  getMinutes : Z;
  getTime : Z;
  toLocaleTimeString : jsstring
}.

(** *** The ledger: [window.gmeetState] *)

Record Entry := {
  name : jsstring;
  email : jsstring;
  time : jsstring;
  date : jsstring;
  timestamp : Z
}.

(** A JavaScript [Map] with string keys: the entries in insertion order. *)
Definition JSMap := list (jsstring * Entry).

Definition key_eqb (a b : jsstring) : bool :=
  if list_eq_dec N.eq_dec a b then true else false.

(** [m.set(k, v)]: an existing key keeps its place and takes the new value,
    a new key goes to the end. *)
Fixpoint map_set (k : jsstring) (v : Entry) (m : JSMap) : JSMap :=
  match m with
  | [] => [(k, v)]
  | (k', v') :: m' =>
      if key_eqb k' k then (k', v) :: m' else (k', v') :: map_set k v m'
  end.

(** [m.get(k)] *)
Fixpoint map_get (k : jsstring) (m : JSMap) : option Entry :=
  match m with
  | [] => None
  | (k', v') :: m' => if key_eqb k' k then Some v' else map_get k m'
  end.

(** [observer] is [None] for [null], and otherwise tells whether the
    [MutationObserver] is observing [document.body]. *)
Record State := {
  attendanceMap : JSMap;
  isRunning : bool;
  observer : option bool;
  startTimestamp : option Z;
  meetingName : jsstring
}.

Definition initial_state : State :=
  {| attendanceMap := []; isRunning := false; observer := None;
     startTimestamp := None; meetingName := [] |}.

Definition pad2 (z : Z) : jsstring := padStart 2 (chr "0") (String_ z).

Definition recordAttendance (name email : jsstring) (now : JSDate)
           (st : State) : State :=
  let day := pad2 (getDate now) in
  let month := pad2 (getMonth now + 1) in
  let year := getFullYear now in
  let dateStr := day ++ str "/" ++ month ++ str "/" ++ String_ year in
  let timeStr := toLocaleTimeString now in
  {| attendanceMap :=
       map_set email
         {| name := name; email := email; time := timeStr; date := dateStr;
            timestamp := getTime now |}
         (attendanceMap st);
     isRunning := isRunning st;
     observer := observer st;
     startTimestamp := startTimestamp st;
     meetingName := meetingName st |}.

Definition parseCandidateNode (node : Node) (now : JSDate) (st : State) : State :=
  match extract node with
  | Some (name, email) => recordAttendance name email now st
  | None => st
  end.

Definition processNode (node : Node) (now : JSDate) (st : State) : State :=
  match innerText node with
  | [] => st
  | _ => if test EMAIL_REGEX (innerText node)
         then parseCandidateNode node now st
         else st
  end.

(** The added element nodes of a batch of [childList] mutations, each with
    the [new Date()] that [recordAttendance] reads while it is processed. *)
Definition handleMutations (added : list (Node * JSDate)) (st : State) : State :=
  if isRunning st
  then fold_left (fun st nd => processNode (fst nd) (snd nd) st) added st
  else st.

Record Status := {
  status_isRunning : bool;
  count : nat;
  status_meetingName : jsstring;
  sessionStarted : bool
}.

(** [!!state.startTimestamp]: [null] and [0] are falsy. *)
Definition truthy_time (t : option Z) : bool :=
  match t with
  | None => false
  | Some z => negb (Z.eqb z 0)
  end.

(** Truthiness of a string argument that may be [undefined]. *)
Definition truthy_text (t : option jsstring) : bool :=
  match t with
  | Some (_ :: _) => true
  | _ => false
  end.

Definition getStatus (st : State) : Status :=
  {| status_isRunning := isRunning st;
     count := length (attendanceMap st);
     status_meetingName := meetingName st;
     sessionStarted := truthy_time (startTimestamp st) |}.

Definition startAttendance (name : option jsstring) (now : JSDate)
           (st : State) : State * Status :=
  if isRunning st then (st, getStatus st)
  else
    let st' :=
      {| attendanceMap := attendanceMap st;
         isRunning := true;
         observer := Some true;
         startTimestamp :=
           if truthy_time (startTimestamp st) then startTimestamp st
           else Some (getTime now);
         meetingName :=
           match name with
           | Some (c :: n) => c :: n
           | _ => meetingName st
           end |} in
    (st', getStatus st').

Definition stopAttendance (st : State) : State * Status :=
  let st' :=
    {| attendanceMap := attendanceMap st;
       isRunning := false;
       observer := match observer st with
                   | Some _ => Some false
                   | None => None
                   end;
       startTimestamp := startTimestamp st;
       meetingName := meetingName st |} in
  (st', getStatus st').

Definition restartAttendance (st : State) : State * Status :=
  let st1 := fst (stopAttendance st) in
  let st' :=
    {| attendanceMap := [];
       isRunning := isRunning st1;
       observer := observer st1;
       startTimestamp := None;
       meetingName := [] |} in
  (st', getStatus st').

(** *** Export *)

(** A pattern that is one sequence without anchors. *)
Definition plain (r : regex) : pattern :=
  [ {| from_start := false; body := r; to_end := false |} ].

(** The pattern of [r.name.replace] in [generateCSV]: the double quote,
    code unit 34, with the [g] flag. *)
Definition QUOTE_REGEX : pattern := plain (Chars [Single "034"%char]).

(** [/[^a-zA-Z0-9-_ ]/g] *)
Definition filename_class : class :=
  [Range "a" "z"; Range "A" "Z"; Range "0" "9";
   Single "-"; Single "_"; Single " "]%char.

Definition UNSAFE_REGEX : pattern := plain (NotChars filename_class).

Definition headers : list jsstring :=
  [str "Name"; str "Email"; str "Time"; str "Date"].

(** The array pushed to [rows] for one entry of the map. *)
Definition csv_row (r : Entry) : list jsstring :=
  let safeName :=
    [dquote] ++ replace_all QUOTE_REGEX [dquote; dquote] (name r)
             ++ [dquote] in
  let safeEmail := [dquote] ++ email r ++ [dquote] in
  [safeName; safeEmail; time r; date r].

Record Export := {
  csvContent : jsstring;
  filename : jsstring;
  export_status : Status
}.

Definition generateCSV (providedName : option jsstring) (now : JSDate)
           (st : State) : Export :=
  let meetingName :=
    match providedName with
    | Some (c :: n) => c :: n
    | _ => meetingName st
    end in
  let rows := map (fun kv => csv_row (snd kv)) (attendanceMap st) in
  let csvContent :=
    join [newline]
         (join (str ",") headers :: map (fun row => join (str ",") row) rows) in
  let d := pad2 (getDate now) in
  let m := pad2 (getMonth now + 1) in
  let y := getFullYear now in
  let hours := getHours now in
  let min := pad2 (getMinutes now) in
  let ampm := if Z.leb 12 hours then str "PM" else str "AM" in
  let hours := if Z.eqb (Z.rem hours 12) 0 then 12%Z else Z.rem hours 12 in
  let timeStr := pad2 hours ++ str "-" ++ min ++ str "-" ++ ampm in
  let filename :=
    match meetingName with
    | [] => []
    | _ => replace_all UNSAFE_REGEX (str "_") meetingName ++ str "_"
    end in
  let filename :=
    filename ++ d ++ str "-" ++ m ++ str "-" ++ String_ y ++ str "_"
             ++ timeStr ++ str ".csv" in
  {| csvContent := csvContent; filename := filename;
     export_status := getStatus st |}.

(** *** The message listener *)

Inductive Action := START | STOP | RESTART | EXPORT | GET_STATUS | OTHER.

Record Request := {
  action : Action;
  request_meetingName : option jsstring
}.

Inductive Response :=
| StatusResponse (s : Status)
| ExportResponse (e : Export).

Definition onMessage (request : Request) (now : JSDate)
           (st : State) : State * Response :=
  match action request with
  | START =>
      let (st', s) := startAttendance (request_meetingName request) now st in
      (st', StatusResponse s)
  | STOP => let (st', s) := stopAttendance st in (st', StatusResponse s)
  | RESTART => let (st', s) := restartAttendance st in (st', StatusResponse s)
  | EXPORT =>
      (st, ExportResponse (generateCSV (request_meetingName request) now st))
  | GET_STATUS => (st, StatusResponse (getStatus st))
  | OTHER => (st, StatusResponse (getStatus st))
  end.

(** What the page's event loop delivers to the script, one at a time. *)
Inductive Event :=
| Message (request : Request) (now : JSDate)
| Mutations (added : list (Node * JSDate)).

Definition step (st : State) (ev : Event) : State :=
  match ev with
  | Message request now => fst (onMessage request now st)
  | Mutations added => handleMutations added st
  end.

Definition run (evs : list Event) (st : State) : State :=
  fold_left step evs st.

(** * Notions that the statements use *)

(** The language of [EMAIL_REGEX], read off the pattern: a non-empty local
    part, [@], a non-empty domain, a dot and two or more letters. *)
Definition email_like (s : jsstring) : Prop :=
  exists l d t,
    s = l ++ chr "@" :: d ++ chr "." :: t /\
    l <> [] /\ forallb (mem local_class) l = true /\
    d <> [] /\ forallb (mem domain_class) d = true /\
    2 <= length t /\ forallb (mem alpha_class) t = true.

(** [s] has a substring in the language of the pattern. *)
Definition has_email (s : jsstring) : Prop :=
  exists pre e post, s = pre ++ e ++ post /\ email_like e.

(** Every class of the pattern rejects [c]. *)
Fixpoint rejects (r : regex) (c : char) : bool :=
  match r with
  | Chars cls => negb (mem cls c)
  | NotChars cls => mem cls c
  | Rep _ cls => negb (mem cls c)
  | Seq r1 r2 => rejects r1 c && rejects r2 c
  end.

(** What the separator pattern removes, said directly: the run of
    separators at the start of the text and the run at its end. *)
Definition strip_separators (s : jsstring) : jsstring :=
  dropWhileEnd (mem separator_class) (dropWhile (mem separator_class) s).

(** A separator artifact: white space or one of the separators that the
    parser strips from the ends of a name. *)
Definition artifact (c : char) : bool := is_space c || mem separator_class c.

(** A name without separator artifacts: it is not empty and neither its
    first nor its last code unit is an artifact. *)
Definition no_artifacts (s : jsstring) : bool :=
  match s with
  | [] => false
  | c :: _ => negb (artifact c) && negb (artifact (last s c))
  end.

(** The records of a map whose key normalizes to [k]. *)
Definition records_for (k : jsstring) (m : JSMap) : JSMap :=
  filter (fun kv => key_eqb (toLowerCase (fst kv)) k) m.

(** What every map built by the script satisfies: no key twice, every
    record filed under its own e-mail, with a name that is not empty, and
    every key the lower case of a string of the pattern's language. *)
Definition ledger_ok (m : JSMap) : Prop :=
  NoDup (map fst m) /\
  forall k r, In (k, r) m ->
    email r = k /\ name r <> [] /\
    exists e, email_like e /\ k = toLowerCase e.

(** CSV quoting as the format has it: the field between double quotes,
    every double quote inside it written twice. *)
Fixpoint double_quotes (s : jsstring) : jsstring :=
  match s with
  | [] => []
  | c :: s' =>
      if N.eqb c dquote then dquote :: dquote :: double_quotes s'
      else c :: double_quotes s'
  end.

Definition csv_quoted (s : jsstring) : jsstring :=
  dquote :: double_quotes s ++ [dquote].

(** A data line with both the name and the e-mail quoted that way. *)
Definition csv_line_escaped (r : Entry) : jsstring :=
  csv_quoted (name r) ++ str "," ++ csv_quoted (email r) ++ str ","
             ++ time r ++ str "," ++ date r.

(** A data line with the name quoted that way and the e-mail put between
    double quotes as it is. *)
Definition csv_line (r : Entry) : jsstring :=
  csv_quoted (name r) ++ str "," ++ (dquote :: email r ++ [dquote]) ++ str ","
             ++ time r ++ str "," ++ date r.

Definition csv_text (line : Entry -> jsstring) (m : JSMap) : jsstring :=
  join [newline] (str "Name,Email,Time,Date" :: map (fun kv => line (snd kv)) m).

(** The file name as the format describes it. *)
Definition digit (z : Z) : char := (48 + Z.to_N z)%N.

Definition two_digits (z : Z) : jsstring := [digit (z / 10); digit (z mod 10)].

Definition four_digits (z : Z) : jsstring :=
  [digit (z / 1000); digit (z / 100 mod 10); digit (z / 10 mod 10);
   digit (z mod 10)].

(** The hour of a twelve-hour clock, and its half of the day. *)
Definition hour12 (h : Z) : Z :=
  if Z.eqb h 0 then 12 else if Z.leb h 12 then h else h - 12.

Definition meridiem (h : Z) : jsstring :=
  if Z.ltb h 12 then str "AM" else str "PM".

(** A wall-clock instant: calendar fields in their ranges and a year of
    four digits. *)
Definition wall_clock (now : JSDate) : bool :=
  (1 <=? getDate now)%Z && (getDate now <=? 31)%Z &&
  (0 <=? getMonth now)%Z && (getMonth now <=? 11)%Z &&
  (1000 <=? getFullYear now)%Z && (getFullYear now <=? 9999)%Z &&
  (0 <=? getHours now)%Z && (getHours now <=? 23)%Z &&
  (0 <=? getMinutes now)%Z && (getMinutes now <=? 59)%Z.

Definition safe_char (c : char) : char :=
  if in_range 65%N 90%N c || in_range 97%N 122%N c || in_range 48%N 57%N c
     || N.eqb c (chr "-") || N.eqb c (chr "_") || N.eqb c (chr " ")
  then c else chr "_".

(** The name that the export uses: the one passed with the request when
    there is one, the session's otherwise. *)
Definition export_name (providedName : option jsstring) (st : State) : jsstring :=
  if truthy_text providedName
  then match providedName with Some n => n | None => [] end
  else meetingName st.

Definition name_part (n : jsstring) : jsstring :=
  match n with
  | [] => []
  | _ => map safe_char n ++ str "_"
  end.

Definition clock_part (now : JSDate) : jsstring :=
  two_digits (getDate now) ++ str "-" ++ two_digits (getMonth now + 1)
    ++ str "-" ++ four_digits (getFullYear now) ++ str "_"
    ++ two_digits (hour12 (getHours now)) ++ str "-"
    ++ two_digits (getMinutes now) ++ str "-" ++ meridiem (getHours now).

(** [f] holds of the first [n] numbers. *)
Fixpoint all_below (f : Z -> bool) (n : nat) : bool :=
  match n with
  | O => true
  | S n' => f (Z.of_nat n') && all_below f n'
  end.

(** A stored name and a stored e-mail with a double quote inside. *)
Definition obrien : jsstring := str "O" ++ [dquote] ++ str "Brien".

Definition quoted_mailbox : jsstring :=
  str "o" ++ [dquote] ++ str "b@example.com".

Definition quoted_state : State :=
  {| attendanceMap :=
       [(quoted_mailbox,
         {| name := obrien; email := quoted_mailbox;
            time := str "09:00 AM"; date := str "07/01/2026";
            timestamp := 1767776400000 |})];
     isRunning := false; observer := None; startTimestamp := None;
     meetingName := [] |}.

(** The [dateStr] of [recordAttendance]. *)
Definition dateStr (now : JSDate) : jsstring :=
  pad2 (getDate now) ++ str "/" ++ pad2 (getMonth now + 1) ++ str "/"
       ++ String_ (getFullYear now).

(** Sample instants. *)
Definition morning : JSDate :=
  {| getDate := 7; getMonth := 0; getFullYear := 2026; getHours := 9;
     getMinutes := 0; getTime := 1767776400000;
     toLocaleTimeString := str "09:00 AM" |}.

Definition evening : JSDate :=
  {| getDate := 17; getMonth := 11; getFullYear := 2026; getHours := 21;
     getMinutes := 5; getTime := 1797541500000;
     toLocaleTimeString := str "09:05 PM" |}.

Definition sample_session : list Event :=
  [Message {| action := START;
              request_meetingName := Some (str "Daily Standup") |} morning;
   Mutations [(fragment (str "John Doe john@example.com") [], morning)]].

(** The widening walk as the rule words it, over the texts of the
    ancestors, closest first: an ancestor counts when its text contains the
    matched e-mail. *)
Fixpoint walk (fuel : nat) (ancestors : list jsstring)
         (matched best : jsstring) : jsstring :=
  match fuel, ancestors with
  | S fuel', t :: up =>
      if includes matched t then
        let candidate := trim (replace matched [] t) in
        if Nat.ltb (length best) (length candidate) then
          if Nat.ltb 2 (length candidate) then candidate
          else walk fuel' up matched candidate
        else walk fuel' up matched best
      else walk fuel' up matched best
  | _, _ => best
  end.

(** Two states that differ at most in the observer of a ledger that is
    not running. *)
Definition same_session (s1 s2 : State) : Prop :=
  attendanceMap s1 = attendanceMap s2 /\ isRunning s1 = isRunning s2 /\
  startTimestamp s1 = startTimestamp s2 /\ meetingName s1 = meetingName s2 /\
  (isRunning s1 = true -> observer s1 = observer s2).

(** The status that a response carries. *)
Definition response_status (r : Response) : Status :=
  match r with
  | StatusResponse s => s
  | ExportResponse e => export_status e
  end.

(** ** popup.js *)

Module Popup.

(** The elements of the popup that the script writes: the [style.display]
    and [disabled] of the buttons, the name input, the status badge and the
    counter. *)
Record UI := {
  startBtn_display : jsstring;
  startBtn_disabled : bool;
  resumeBtn_display : jsstring;
  resumeBtn_disabled : bool;
  stopBtn_disabled : bool;
  meetingNameInput_disabled : bool;
  meetingNameInput_value : jsstring;
  statusIndicator_textContent : jsstring;
  statusIndicator_className : jsstring;
  countText_textContent : jsstring
}.

Definition updateStatus (text : jsstring) (isActive : bool) (ui : UI) : UI :=
  {| startBtn_display := startBtn_display ui;
     startBtn_disabled := startBtn_disabled ui;
     resumeBtn_display := resumeBtn_display ui;
     resumeBtn_disabled := resumeBtn_disabled ui;
     stopBtn_disabled := stopBtn_disabled ui;
     meetingNameInput_disabled := meetingNameInput_disabled ui;
     meetingNameInput_value := meetingNameInput_value ui;
     statusIndicator_textContent := text;
     statusIndicator_className :=
       if isActive then str "badge active" else str "badge inactive";
     countText_textContent := countText_textContent ui |}.

(** [refreshUI(state)]; [None] is a null response. *)
Definition refreshUI (state : option Status) (ui : UI) : UI :=
  match state with
  | None => ui
  | Some state =>
      let isRunning := status_isRunning state in
      let count := count state in
      let canResume := sessionStarted state || Nat.ltb 0 count in
      let ui :=
        if isRunning then
          updateStatus (str "Active") true
            {| startBtn_display := str "block";
               startBtn_disabled := true;
               resumeBtn_display := str "none";
               resumeBtn_disabled := resumeBtn_disabled ui;
               stopBtn_disabled := false;
               meetingNameInput_disabled := true;
               meetingNameInput_value := meetingNameInput_value ui;
               statusIndicator_textContent := statusIndicator_textContent ui;
               statusIndicator_className := statusIndicator_className ui;
               countText_textContent := countText_textContent ui |}
        else
          let ui :=
            updateStatus (str "Stopped") false
              {| startBtn_display := startBtn_display ui;
                 startBtn_disabled := startBtn_disabled ui;
                 resumeBtn_display := resumeBtn_display ui;
                 resumeBtn_disabled := resumeBtn_disabled ui;
                 stopBtn_disabled := true;
                 meetingNameInput_disabled := false;
                 meetingNameInput_value := meetingNameInput_value ui;
                 statusIndicator_textContent := statusIndicator_textContent ui;
                 statusIndicator_className := statusIndicator_className ui;
                 countText_textContent := countText_textContent ui |} in
          if canResume then
            {| startBtn_display := str "none";
               startBtn_disabled := startBtn_disabled ui;
               resumeBtn_display := str "block";
               resumeBtn_disabled := false;
               stopBtn_disabled := stopBtn_disabled ui;
               meetingNameInput_disabled := meetingNameInput_disabled ui;
               meetingNameInput_value := meetingNameInput_value ui;
               statusIndicator_textContent := statusIndicator_textContent ui;
               statusIndicator_className := statusIndicator_className ui;
               countText_textContent := countText_textContent ui |}
          else
            {| startBtn_display := str "block";
               startBtn_disabled := false;
               resumeBtn_display := str "none";
               resumeBtn_disabled := resumeBtn_disabled ui;
               stopBtn_disabled := stopBtn_disabled ui;
               meetingNameInput_disabled := meetingNameInput_disabled ui;
               meetingNameInput_value := meetingNameInput_value ui;
               statusIndicator_textContent := statusIndicator_textContent ui;
               statusIndicator_className := statusIndicator_className ui;
               countText_textContent := countText_textContent ui |} in
      {| startBtn_display := startBtn_display ui;
         startBtn_disabled := startBtn_disabled ui;
         resumeBtn_display := resumeBtn_display ui;
         resumeBtn_disabled := resumeBtn_disabled ui;
         stopBtn_disabled := stopBtn_disabled ui;
         meetingNameInput_disabled := meetingNameInput_disabled ui;
         meetingNameInput_value :=
           match status_meetingName state, meetingNameInput_value ui with
           | _ :: _, [] => status_meetingName state
           | _, _ => meetingNameInput_value ui
           end;
         statusIndicator_textContent := statusIndicator_textContent ui;
         statusIndicator_className := statusIndicator_className ui;
         countText_textContent := String_ (Z.of_nat count) |}
  end.

(** The active tab as [chrome.tabs.query] gives it. *)
Record Tab := {
  tab_id : Z;
  tab_url : option jsstring
}.

(** How an awaited call ends: with a value, or with an error that has a
    [message]. *)
Inductive Outcome (A : Type) :=
| Resolved (a : A)
| Rejected (message : jsstring).

Arguments Resolved {A} a.
Arguments Rejected {A} message.

(** The calls that the popup makes on the tab: [chrome.tabs.sendMessage]
    and [chrome.scripting.executeScript]. *)
Inductive Call :=
| SendMessage (tabId : Z) (action : Action) (meetingName : option jsstring)
| ExecuteScript (tabId : Z).

(** [sendMessage(action, payload)]: the tab found, then how the first
    [chrome.tabs.sendMessage], the injection and the second
    [chrome.tabs.sendMessage] end if they are made.  The result is the
    value returned ([None] for null), the popup after the call, and the
    calls made on the tab, in order. *)
Definition sendMessage
           (tab : option Tab)
           (first : Outcome Response) (injection : Outcome unit)
           (second : Outcome Response)
           (action : Action) (meetingName : option jsstring) (ui : UI)
  : option Response * UI * list Call :=
  let invalid :=
    (None, updateStatus (str "Error: Invalid Page (Meet Only)") false ui, []) in
  match tab with
  | None => invalid
  | Some tab =>
      match tab_url tab with
      | None | Some [] => invalid
      | Some url =>
          if negb (startsWith (str "https://meet.google.com/") url)
          then invalid
          else
            let call := SendMessage (tab_id tab) action meetingName in
            match first with
            | Resolved r => (Some r, ui, [call])
            | Rejected message =>
                if includes (str "Could not establish connection") message
                   || includes (str "Receiving end does not exist") message
                then
                  match injection with
                  | Rejected _ =>
                      (None,
                       updateStatus (str "Error: Connection Failed") false ui,
                       [call; ExecuteScript (tab_id tab)])
                  | Resolved _ =>
                      match second with
                      | Resolved r =>
                          (Some r, ui,
                           [call; ExecuteScript (tab_id tab); call])
                      | Rejected _ =>
                          (None,
                           updateStatus (str "Error: Connection Failed")
                                        false ui,
                           [call; ExecuteScript (tab_id tab); call])
                      end
                  end
                else
                  (None, updateStatus (str "Error: " ++ message) false ui,
                   [call])
            end
      end
  end.

(** What [handleExport] does with the response: it saves the file or it
    shows the alert. *)
Inductive ExportEffect :=
| Download (content filename : jsstring)
| Alert (text : jsstring).

Definition exportEffect (response : option Response) : ExportEffect :=
  match response with
  | Some (ExportResponse e) =>
      match csvContent e with
      | [] => Alert (str "No data or error exporting.")
      | _ => Download (csvContent e) (filename e)
      end
  | _ => Alert (str "No data or error exporting.")
  end.

(** A button can be used when it is shown and not disabled. *)
Definition usable (display : jsstring) (disabled : bool) : bool :=
  negb (key_eqb display (str "none")) && negb disabled.

(** Which of Start, Resume and Stop can be used. *)
Definition buttons (ui : UI) : bool * bool * bool :=
  (usable (startBtn_display ui) (startBtn_disabled ui),
   usable (resumeBtn_display ui) (resumeBtn_disabled ui),
   negb (stopBtn_disabled ui)).

(** The active tab is a page of Google Meet. *)
Definition on_meet (tab : option Tab) : bool :=
  match tab with
  | Some t =>
      match tab_url t with
      | Some url => startsWith (str "https://meet.google.com/") url
      | None => false
      end
  | None => false
  end.

Definition is_send (c : Call) : bool :=
  match c with SendMessage _ _ _ => true | ExecuteScript _ => false end.

End Popup.

(** * Properties *)

(** ** The backtracking matcher *)

Section Repetition.

Variable p : char -> bool.

(** A successful repetition took a run [u] of accepted code units, at
    least [min] of them, and the continuation succeeded on the rest. *)
Lemma rep_inv (k : jsstring -> option nat) :
  forall s min r,
    rep p min s k = Some r ->
    exists u v r',
      s = u ++ v /\ forallb p u = true /\ min <= length u /\
      k v = Some r' /\ r = length u + r'.
Proof.
  induction s as [|c s IH]; intros min r H; simpl in H.
  - destruct (Nat.eqb_spec min 0); [|discriminate].
    exists [], [], r. subst. auto.
  - destruct (p c) eqn:Hc.
    + destruct (rep p (pred min) s k) as [n|] eqn:Hr.
      * injection H as <-.
        destruct (IH _ _ Hr) as (u & v & r' & -> & Hu & Hm & Hk & ->).
        exists (c :: u), v, r'. simpl. rewrite Hc, Hu.
        repeat split; auto. lia.
      * destruct (Nat.eqb_spec min 0); [|discriminate].
        exists [], (c :: s), r. subst. auto.
    + destruct (Nat.eqb_spec min 0); [|discriminate].
      exists [], (c :: s), r. subst. auto.
Qed.

(** The repetition fails when the continuation fails after every run it
    could take. *)
Lemma rep_none (k : jsstring -> option nat) :
  forall s min,
    (forall u v, s = u ++ v -> forallb p u = true -> min <= length u ->
                 k v = None) ->
    rep p min s k = None.
Proof.
  induction s as [|c s IH]; intros min H; simpl.
  - destruct (Nat.eqb_spec min 0); auto.
    apply (H [] []); auto. simpl. lia.
  - assert (H0 : (if Nat.eqb min 0 then k (c :: s) else None) = None).
    { destruct (Nat.eqb_spec min 0); auto.
      apply (H [] (c :: s)); auto. simpl. lia. }
    destruct (p c) eqn:Hc; auto.
    rewrite IH; auto.
    intros u v -> Hu Hm. apply (H (c :: u) v); auto.
    + simpl. now rewrite Hc, Hu.
    + simpl. lia.
Qed.

(** Greedy choice: the repetition takes the run [u] when the continuation
    succeeds right after it and fails after every longer run. *)
Lemma rep_greedy (k : jsstring -> option nat) :
  forall u v min r,
    forallb p u = true -> min <= length u ->
    (forall v1 v2, v = v1 ++ v2 -> v1 <> [] -> forallb p v1 = true ->
                   k v2 = None) ->
    k v = Some r ->
    rep p min (u ++ v) k = Some (length u + r).
Proof.
  induction u as [|c u IH]; intros v min r Hu Hm Hdeep Hk.
  - simpl in Hm. assert (min = 0) by lia. subst min. simpl.
    destruct v as [|c v]; simpl; auto.
    destruct (p c) eqn:Hc; auto.
    rewrite rep_none; auto.
    intros v1 v2 -> Hv1 _. apply (Hdeep (c :: v1) v2); auto.
    + discriminate.
    + simpl. now rewrite Hc, Hv1.
  - simpl in Hu. apply andb_prop in Hu as [Hc Hu]. simpl in *.
    rewrite Hc. rewrite (IH v (pred min) r); auto. lia.
Qed.

(** Text after a code unit that the class rejects is never looked at. *)
Lemma rep_stop (k k' : jsstring -> option nat) c t :
  p c = false ->
  (forall s, k (s ++ c :: t) = k' s) ->
  forall s min, rep p min (s ++ c :: t) k = rep p min s k'.
Proof.
  intros Hc Hk. induction s as [|a s IH]; intros min; simpl.
  - rewrite Hc, <- (Hk []). reflexivity.
  - rewrite IH, <- (Hk (a :: s)). reflexivity.
Qed.

(** A repetition that succeeds still succeeds when text is appended. *)
Lemma rep_extend (k k' : jsstring -> option nat) t :
  (forall s, k s <> None -> k' (s ++ t) <> None) ->
  forall s min, rep p min s k <> None -> rep p min (s ++ t) k' <> None.
Proof.
  intros Hk.
  assert (Hz : forall s, k' s <> None -> rep p 0 s k' <> None).
  { intros [|c s] H; simpl; auto.
    destruct (p c); auto. destruct (rep p 0 s k'); auto. discriminate. }
  induction s as [|a s IH]; intros min H; simpl in H.
  - destruct (Nat.eqb_spec min 0); [subst|congruence].
    apply Hz. now apply (Hk []).
  - simpl.
    assert (H0 : (if Nat.eqb min 0 then k (a :: s) else None) <> None ->
                 (if Nat.eqb min 0 then k' (a :: s ++ t) else None) <> None).
    { destruct (Nat.eqb min 0); auto. apply (Hk (a :: s)). }
    destruct (p a); auto.
    destruct (rep p (pred min) s k) eqn:Hr.
    + destruct (rep p (pred min) (s ++ t) k') eqn:Hr'; [discriminate|].
      exfalso. apply (IH (pred min)); auto. congruence.
    + destruct (rep p (pred min) (s ++ t) k'); [discriminate|]. auto.
Qed.

End Repetition.

Lemma rmatch_stop (r : regex) c t :
  rejects r c = true ->
  forall k k', (forall s, k (s ++ c :: t) = k' s) ->
  forall s, rmatch r (s ++ c :: t) k = rmatch r s k'.
Proof.
  induction r as [cls|cls|min cls|r1 IH1 r2 IH2]; simpl; intros Hc k k' Hk s.
  - apply negb_true_iff in Hc.
    destruct s as [|a s]; simpl.
    + now rewrite Hc.
    + now rewrite Hk.
  - destruct s as [|a s]; simpl.
    + now rewrite Hc.
    + now rewrite Hk.
  - apply rep_stop; auto. now apply negb_true_iff.
  - apply andb_prop in Hc as [Hc1 Hc2].
    apply IH1; auto.
Qed.

Lemma rmatch_extend (r : regex) t :
  forall k k', (forall s, k s <> None -> k' (s ++ t) <> None) ->
  forall s, rmatch r s k <> None -> rmatch r (s ++ t) k' <> None.
Proof.
  induction r as [cls|cls|min cls|r1 IH1 r2 IH2]; simpl; intros k k' Hk s H.
  - destruct s as [|a s]; simpl; auto.
    destruct (mem cls a); auto.
    specialize (Hk s). destruct (k s); [|now elim H].
    destruct (k' (s ++ t)); [discriminate|]. now elim Hk.
  - destruct s as [|a s]; simpl; auto.
    destruct (mem cls a); auto.
    specialize (Hk s). destruct (k s); [|now elim H].
    destruct (k' (s ++ t)); [discriminate|]. now elim Hk.
  - eapply rep_extend; eauto.
  - eapply IH1; [|exact H]. intros s'. now apply IH2.
Qed.

Lemma match_at_stop (r : regex) c s t :
  rejects r c = true -> match_at r (s ++ c :: t) = match_at r s.
Proof. intros Hc. now apply rmatch_stop. Qed.

Lemma match_at_extend (r : regex) s t :
  match_at r s <> None -> match_at r (s ++ t) <> None.
Proof. apply rmatch_extend. discriminate. Qed.

(** ** The leftmost match *)

Lemma exec_app (r : regex) post n :
  match_at r post = Some n ->
  forall pre,
    (forall p1 p2, pre = p1 ++ p2 -> p2 <> [] ->
                   match_at r (p2 ++ post) = None) ->
    exec r (pre ++ post) = Some (length pre, n).
Proof.
  intros Hpost. induction pre as [|c pre IH]; intros H.
  - simpl. destruct post; simpl; now rewrite Hpost.
  - pose proof (H [] (c :: pre) eq_refl ltac:(discriminate)) as H0.
    simpl in H0 |- *. rewrite H0, IH; auto.
    intros p1 p2 -> Hp2. now apply (H (c :: p1) p2).
Qed.

Lemma exec_some (r : regex) :
  forall s i n,
    exec r s = Some (i, n) ->
    exists pre post,
      s = pre ++ post /\ length pre = i /\ match_at r post = Some n.
Proof.
  induction s as [|c s IH]; intros i n H; simpl in H.
  - destruct (match_at r []) eqn:Hm; [|discriminate].
    injection H as <- <-. now exists [], [].
  - destruct (match_at r (c :: s)) eqn:Hm.
    + injection H as <- <-. now exists [], (c :: s).
    + destruct (exec r s) as [[j m]|] eqn:He; [|discriminate].
      injection H as <- <-.
      destruct (IH _ _ eq_refl) as (pre & post & -> & <- & Hp).
      now exists (c :: pre), post.
Qed.

Lemma exec_none (r : regex) :
  forall pre post, exec r (pre ++ post) = None -> match_at r post = None.
Proof.
  induction pre as [|c pre IH]; intros post H.
  - simpl in H. destruct post; simpl in H;
      destruct (match_at r _); auto; discriminate.
  - simpl in H. destruct (match_at r (c :: pre ++ post)); [discriminate|].
    apply IH. destruct (exec r (pre ++ post)) as [[j m]|]; auto; discriminate.
Qed.

(** ** The e-mail pattern *)

Lemma chars_inv cls (k : jsstring -> option nat) s r :
  rmatch (Chars cls) s k = Some r ->
  exists c s' r',
    s = c :: s' /\ mem cls c = true /\ k s' = Some r' /\ r = S r'.
Proof.
  destruct s as [|c s]; simpl; [discriminate|].
  destruct (mem cls c) eqn:Hc; [|discriminate].
  destruct (k s) as [r'|] eqn:Hk; [|discriminate].
  intros [= <-]. now exists c, s, r'.
Qed.

Lemma single_mem a c : mem [Single a] c = true -> c = chr a.
Proof.
  unfold mem. simpl. rewrite orb_false_r. apply N.eqb_eq.
Qed.

Lemma alpha_not_dot c :
  mem alpha_class c = true -> mem [Single "."%char] c = false.
Proof.
  intros H. destruct (mem [Single "."%char] c) eqn:Hd; auto.
  apply single_mem in Hd. subst c. discriminate.
Qed.

(** A string of the language is matched whole. *)
Lemma email_like_match s :
  email_like s -> match_at EMAIL_REGEX s = Some (length s).
Proof.
  intros (l & d & t & -> & Hl0 & Hl & Hd0 & Hd & Ht2 & Ht).
  unfold match_at, EMAIL_REGEX. cbn [rmatch].
  replace (length (l ++ chr "@" :: d ++ chr "." :: t))
    with (length l + S (length d + S (length t + 0))).
  2:{ rewrite length_app. simpl. rewrite length_app. simpl. lia. }
  apply rep_greedy; auto.
  - destruct l; [congruence|simpl; lia].
  - intros v1 v2 E Hv1 Hp. destruct v1 as [|c v1]; [congruence|].
    injection E as <- _. discriminate.
  - change (mem [Single "@"%char] (chr "@")) with true.
    rewrite (@rep_greedy (mem domain_class) _ d (chr "." :: t) 1
               (S (length t + 0))); auto.
    + destruct d; [congruence|simpl; lia].
    + intros v1 v2 E Hv1 Hp. destruct v1 as [|c v1]; [congruence|].
      injection E as _ ->.
      rewrite forallb_app in Ht. apply andb_prop in Ht as [_ Ht].
      destruct v2 as [|c2 v2]; auto.
      simpl in Ht. apply andb_prop in Ht as [Hc2 _].
      now rewrite (alpha_not_dot _ Hc2).
    + change (mem [Single "."%char] (chr ".")) with true.
      rewrite <- (app_nil_r t) at 1.
      rewrite (@rep_greedy (mem alpha_class) _ t [] 2 0); auto.
      intros v1 v2 E Hv1. destruct v1; [congruence|discriminate].
Qed.

(** A match is a string of the language. *)
Lemma match_email_like s n :
  match_at EMAIL_REGEX s = Some n ->
  exists e rest, s = e ++ rest /\ length e = n /\ email_like e.
Proof.
  unfold match_at, EMAIL_REGEX. cbn [rmatch]. intros H.
  apply rep_inv in H as (l & v1 & r1 & -> & Hl & Hl1 & H & ->).
  destruct v1 as [|c1 v1]; [discriminate|].
  destruct (mem [Single "@"%char] c1) eqn:Hc1; [|discriminate].
  apply single_mem in Hc1. subst c1.
  destruct (rep (mem domain_class) 1 v1 _) as [r2|] eqn:H2; [|discriminate].
  injection H as <-.
  apply rep_inv in H2 as (d & v2 & r3 & -> & Hd & Hd1 & H & ->).
  destruct v2 as [|c2 v2]; [discriminate|].
  destruct (mem [Single "."%char] c2) eqn:Hc2; [|discriminate].
  apply single_mem in Hc2. subst c2.
  destruct (rep (mem alpha_class) 2 v2 _) as [r4|] eqn:H4; [|discriminate].
  injection H as <-.
  apply rep_inv in H4 as (t & rest & r5 & -> & Ht & Ht2 & H & ->).
  injection H as <-.
  exists (l ++ chr "@" :: d ++ chr "." :: t), rest. repeat split.
  - rewrite <- app_assoc. simpl. rewrite <- app_assoc. reflexivity.
  - rewrite length_app. simpl. rewrite length_app. simpl. lia.
  - exists l, d, t. repeat split; auto.
    + destruct l; [simpl in Hl1; lia|discriminate].
    + destruct d; [simpl in Hd1; lia|discriminate].
Qed.

(** [exec] finds a match exactly in the texts that have a substring of the
    language. *)
Lemma exec_some_has_email s i n :
  exec EMAIL_REGEX s = Some (i, n) ->
  exists pre e post,
    s = pre ++ e ++ post /\ length pre = i /\ length e = n /\ email_like e.
Proof.
  intros H. apply exec_some in H as (pre & post & -> & Hi & H).
  apply match_email_like in H as (e & rest & -> & Hn & He).
  now exists pre, e, rest.
Qed.

Lemma has_email_exec s : has_email s -> exec EMAIL_REGEX s <> None.
Proof.
  intros (pre & e & post & -> & He) H.
  apply exec_none in H.
  apply (match_at_extend EMAIL_REGEX e post); auto.
  rewrite (email_like_match He). discriminate.
Qed.

Lemma exec_none_no_email s : exec EMAIL_REGEX s = None -> ~ has_email s.
Proof. intros H He. now apply (has_email_exec He). Qed.

Lemma no_email_exec_none s : ~ has_email s -> exec EMAIL_REGEX s = None.
Proof.
  intros H. destruct (exec EMAIL_REGEX s) as [[i n]|] eqn:He; auto.
  exfalso. apply H.
  apply exec_some_has_email in He as (pre & e & post & -> & _ & _ & He).
  now exists pre, e, post.
Qed.

(** ** String primitives *)

Lemma startsWith_app pat rest : startsWith pat (pat ++ rest) = true.
Proof.
  induction pat as [|c pat IH]; simpl; auto. now rewrite N.eqb_refl.
Qed.

Lemma startsWith_inv pat :
  forall s, startsWith pat s = true -> exists rest, s = pat ++ rest.
Proof.
  induction pat as [|c pat IH]; intros s H.
  - now exists s.
  - destruct s as [|a s]; simpl in H; [discriminate|].
    apply andb_prop in H as [Hc H]. apply N.eqb_eq in Hc. subst a.
    destruct (IH _ H) as [rest ->]. now exists rest.
Qed.

Lemma skipn_length_app (pat rest : jsstring) :
  skipn (length pat) (pat ++ rest) = rest.
Proof. induction pat; simpl; auto. Qed.

Lemma firstn_length_app (pat rest : jsstring) :
  firstn (length pat) (pat ++ rest) = pat.
Proof. induction pat; simpl; auto. now f_equal. Qed.

(** [replace] takes the first occurrence. *)
Lemma replace_app pat by_ post :
  startsWith pat post = true ->
  forall pre,
    (forall p1 p2, pre = p1 ++ p2 -> p2 <> [] ->
                   startsWith pat (p2 ++ post) = false) ->
    replace pat by_ (pre ++ post) = pre ++ by_ ++ skipn (length pat) post.
Proof.
  intros Hpost. induction pre as [|c pre IH]; intros H.
  - simpl. destruct post; simpl; now rewrite Hpost.
  - pose proof (H [] (c :: pre) eq_refl ltac:(discriminate)) as H0.
    simpl in H0 |- *. rewrite H0. f_equal. apply IH.
    intros p1 p2 -> Hp2. now apply (H (c :: p1) p2).
Qed.

Lemma dropWhile_keep p c s : p c = false -> dropWhile p (c :: s) = c :: s.
Proof. intros H. simpl. now rewrite H. Qed.

Lemma dropWhileEnd_snoc p s c :
  dropWhileEnd p (s ++ [c]) = if p c then dropWhileEnd p s else s ++ [c].
Proof.
  unfold dropWhileEnd. rewrite rev_app_distr. simpl.
  destruct (p c); auto. simpl. now rewrite rev_involutive.
Qed.

Lemma dropWhileEnd_keep p c s :
  p (last (c :: s) c) = false -> dropWhileEnd p (c :: s) = c :: s.
Proof.
  intros H.
  assert (Hne : c :: s <> []) by discriminate.
  rewrite (app_removelast_last c Hne) at 1 2.
  rewrite dropWhileEnd_snoc, H.
  now rewrite <- (app_removelast_last c Hne).
Qed.

Lemma no_artifacts_inv s :
  no_artifacts s = true ->
  exists c s', s = c :: s' /\
    is_space c = false /\ mem separator_class c = false /\
    is_space (last s c) = false /\ mem separator_class (last s c) = false.
Proof.
  destruct s as [|c s']; [discriminate|]. intros H.
  apply andb_prop in H as [H1 H2].
  apply negb_true_iff, orb_false_elim in H1 as [? ?].
  apply negb_true_iff, orb_false_elim in H2 as [? ?].
  exists c, s'. auto.
Qed.

(** A name without artifacts goes through the clean-up unchanged. *)
Lemma trim_clean s : no_artifacts s = true -> trim s = s.
Proof.
  intros H. apply no_artifacts_inv in H as (c & s' & -> & H1 & _ & H2 & _).
  unfold trim. rewrite dropWhile_keep; auto. now apply dropWhileEnd_keep.
Qed.

Lemma strip_separators_clean s :
  no_artifacts s = true -> strip_separators s = s.
Proof.
  intros H. apply no_artifacts_inv in H as (c & s' & -> & _ & H1 & _ & H2).
  unfold strip_separators. rewrite dropWhile_keep; auto.
  now apply dropWhileEnd_keep.
Qed.

Lemma trim_clean_space s :
  no_artifacts s = true -> trim (s ++ str " ") = s.
Proof.
  intros H. pose proof (trim_clean _ H) as Ht.
  apply no_artifacts_inv in H as (c & s' & -> & H1 & _ & H2 & _).
  unfold trim in *. change ((c :: s') ++ str " ") with (c :: (s' ++ str " ")).
  rewrite dropWhile_keep in Ht |- *; auto.
  change (c :: s' ++ str " ") with ((c :: s') ++ [chr " "]).
  rewrite dropWhileEnd_snoc. exact Ht.
Qed.

(** ** Replacing every match *)

Lemma forallb_rev (p : char -> bool) s : forallb p (rev s) = forallb p s.
Proof.
  induction s as [|c s IH]; simpl; auto.
  rewrite forallb_app, IH. simpl. rewrite andb_true_r. apply andb_comm.
Qed.

Lemma dropWhile_all p s : forallb p s = true -> dropWhile p s = [].
Proof.
  induction s as [|c s IH]; simpl; auto.
  intros H. apply andb_prop in H as [Hc H]. rewrite Hc. auto.
Qed.

Lemma dropWhile_snoc p s c :
  dropWhile p (s ++ [c])
  = if forallb p s then (if p c then [] else [c]) else dropWhile p s ++ [c].
Proof.
  induction s as [|a s IH]; simpl; auto.
  destruct (p a); simpl; auto.
Qed.

Lemma dropWhileEnd_cons p c s :
  dropWhileEnd p (c :: s)
  = if forallb p (c :: s) then [] else c :: dropWhileEnd p s.
Proof.
  unfold dropWhileEnd. cbn [rev forallb].
  rewrite dropWhile_snoc, forallb_rev.
  destruct (forallb p s) eqn:Hs.
  - rewrite andb_true_r. destruct (p c); auto.
    rewrite dropWhile_all; auto. now rewrite forallb_rev.
  - rewrite andb_false_r, rev_app_distr. reflexivity.
Qed.

Lemma takeWhile_dropWhile p s : takeWhile p s ++ dropWhile p s = s.
Proof.
  induction s as [|c s IH]; simpl; auto.
  destruct (p c); simpl; auto. now rewrite IH.
Qed.

Lemma skipn_takeWhile p s :
  skipn (length (takeWhile p s)) s = dropWhile p s.
Proof.
  induction s as [|c s IH]; simpl; auto. destruct (p c); simpl; auto.
Qed.

Lemma dropWhile_length p s : length (dropWhile p s) <= length s.
Proof.
  induction s as [|c s IH]; simpl; auto. destruct (p c); simpl; lia.
Qed.

Lemma takeWhile_all p s : forallb p (takeWhile p s) = true.
Proof.
  induction s as [|c s IH]; simpl; auto.
  destruct (p c) eqn:Hc; simpl; auto. now rewrite Hc.
Qed.

Lemma dropWhile_head p s :
  forall v1 v2, dropWhile p s = v1 ++ v2 -> v1 <> [] ->
                forallb p v1 = true -> False.
Proof.
  induction s as [|c s IH]; simpl; intros v1 v2 E Hv1 Hp.
  - destruct v1; [congruence|discriminate].
  - destruct (p c) eqn:Hc; [eauto|].
    destruct v1 as [|a v1]; [congruence|].
    injection E as <- _. simpl in Hp. rewrite Hc in Hp. discriminate.
Qed.

(** A repetition with nothing after it takes the whole run. *)
Lemma rep_run p s :
  p (hd 0%N s) = true -> s <> [] ->
  rep p 1 s (fun _ => Some 0) = Some (length (takeWhile p s)).
Proof.
  intros Hh Hs.
  rewrite <- (takeWhile_dropWhile p s) at 1.
  rewrite <- (Nat.add_0_r (length (takeWhile p s))).
  apply rep_greedy; auto.
  - apply takeWhile_all.
  - destruct s as [|c s]; [congruence|]. simpl in Hh |- *.
    rewrite Hh. simpl. lia.
  - intros v1 v2 E Hv1 Hp. exfalso. eapply dropWhile_head; eauto.
Qed.

Lemma rep_no_run p (k : jsstring -> option nat) s :
  p (hd 0%N s) = false \/ s = [] -> rep p 1 s k = None.
Proof.
  destruct s as [|c s]; simpl; auto.
  intros [H|H]; [now rewrite H|discriminate].
Qed.

(** A repetition that must reach the end of the text. *)
Lemma rep_to_end p s :
  rep p 1 s (fun rest => match rest with [] => Some 0 | _ :: _ => None end)
  = if forallb p s && negb (Nat.eqb (length s) 0)
    then Some (length s) else None.
Proof.
  destruct (forallb p s) eqn:Hall; cbn [andb].
  - destruct s as [|c s]; [reflexivity|].
    change (negb (Nat.eqb (length (c :: s)) 0)) with true. cbv iota.
    pose proof (@rep_greedy p
                  (fun rest => match rest with [] => Some 0 | _ :: _ => None end)
                  (c :: s) [] 1 0 Hall) as H.
    rewrite app_nil_r, Nat.add_0_r in H. apply H; auto.
    + simpl. lia.
    + intros v1 v2 E. destruct v1; [congruence|discriminate].
  - apply rep_none. intros u v -> Hu _.
    destruct v; auto.
    rewrite app_nil_r in Hall. congruence.
Qed.

Lemma match_separator bol s :
  match_pattern SEPARATOR_REGEX bol s
  = if bol && mem separator_class (hd 0%N s) && negb (Nat.eqb (length s) 0)
    then Some (length (takeWhile (mem separator_class) s))
    else if forallb (mem separator_class) s && negb (Nat.eqb (length s) 0)
         then Some (length s) else None.
Proof.
  unfold SEPARATOR_REGEX, match_pattern, match_alternative.
  cbn [from_start body to_end rmatch andb].
  rewrite rep_to_end.
  set (e := if forallb (mem separator_class) s && negb (Nat.eqb (length s) 0)
            then Some (length s) else None).
  assert (He : match e with Some n => Some n | None => None end = e)
    by now destruct e.
  destruct bol; cbn [negb andb]; [|exact He].
  destruct s as [|c s]; [exact He|].
  cbn [hd length Nat.eqb negb].
  destruct (mem separator_class c) eqn:Hc; cbn [andb].
  - rewrite rep_run; auto. discriminate.
  - rewrite rep_no_run; auto.
Qed.

(** Away from index 0 the separator pattern removes the final run. *)
Lemma strip_from_inside :
  forall fuel s,
    length s < fuel ->
    replace_all_from fuel SEPARATOR_REGEX [] false s
    = dropWhileEnd (mem separator_class) s.
Proof.
  induction fuel as [|fuel IH]; intros s Hf; [lia|].
  cbn [replace_all_from]. rewrite match_separator. cbn [andb].
  destruct s as [|c s]; [reflexivity|].
  rewrite dropWhileEnd_cons. cbn [length Nat.eqb negb] in *.
  destruct (forallb (mem separator_class) (c :: s)); cbn [andb].
  - change (S (length s)) with (length (c :: s)).
    rewrite skipn_all. cbn [app].
    destruct fuel; [reflexivity|]. cbn [replace_all_from].
    now rewrite match_separator.
  - f_equal. apply IH. lia.
Qed.

(** The separator pattern removes the run of separators at the start of
    the text and the one at its end. *)
Lemma replace_separators s :
  replace_all SEPARATOR_REGEX [] s = strip_separators s.
Proof.
  unfold replace_all, strip_separators.
  cbn [replace_all_from]. rewrite match_separator. cbn [andb].
  destruct s as [|c s]; [reflexivity|].
  cbn [hd length Nat.eqb negb dropWhile].
  destruct (mem separator_class c) eqn:Hc; cbn [andb].
  - cbn [takeWhile]. rewrite Hc. cbn [length skipn app].
    rewrite skipn_takeWhile. apply strip_from_inside.
    pose proof (dropWhile_length (mem separator_class) s). lia.
  - rewrite dropWhileEnd_cons. cbn [forallb]. rewrite Hc. cbn [andb app].
    f_equal. apply strip_from_inside. lia.
Qed.

(** A pattern that is one class replaces the code units of the class. *)
Lemma replace_all_units (p : pattern) (single : char -> bool) by_ :
  (forall bol c s,
      match_pattern p bol (c :: s) = if single c then Some 1 else None) ->
  (forall bol, match_pattern p bol [] = None) ->
  forall s,
    replace_all p by_ s = flat_map (fun c => if single c then by_ else [c]) s.
Proof.
  intros Hc Hnil s. unfold replace_all.
  generalize true. generalize (Nat.lt_succ_diag_r (length s)).
  generalize (S (length s)) as fuel. intros fuel. revert s.
  induction fuel as [|fuel IH]; intros s Hf bol; [lia|].
  cbn [replace_all_from].
  destruct s as [|c s]; [now rewrite Hnil|].
  rewrite Hc. cbn [flat_map length] in *.
  destruct (single c); cbn [skipn]; rewrite IH by lia; reflexivity.
Qed.

(** ** Name and e-mail in one fragment *)

Lemma suffix_snoc (A : Type) (s p1 p2 : list A) (c : A) :
  s ++ [c] = p1 ++ p2 -> p2 <> [] ->
  exists q, p2 = q ++ [c] /\ s = p1 ++ q.
Proof.
  intros E Hp2.
  rewrite (app_removelast_last c Hp2) in E.
  rewrite app_assoc in E. apply app_inj_tail in E as [-> E].
  exists (removelast p2). split; auto.
  transitivity (removelast p2 ++ [last p2 c]).
  - now apply app_removelast_last.
  - now rewrite <- E.
Qed.

Lemma no_match_before s e :
  ~ has_email s ->
  forall p1 p2, s ++ str " " = p1 ++ p2 -> p2 <> [] ->
                match_at EMAIL_REGEX (p2 ++ e) = None.
Proof.
  intros Hs p1 p2 E Hp2.
  apply suffix_snoc in E as (q & -> & ->); auto.
  rewrite <- app_assoc. simpl.
  rewrite match_at_stop by reflexivity.
  destruct (match_at EMAIL_REGEX q) as [n|] eqn:Hm; auto.
  exfalso. apply Hs.
  apply match_email_like in Hm as (e' & rest & -> & _ & He).
  now exists p1, e', rest.
Qed.

Lemma match_after_name s e :
  email_like e -> ~ has_email s ->
  match_ EMAIL_REGEX (s ++ str " " ++ e) = Some e /\
  replace e [] (s ++ str " " ++ e) = s ++ str " ".
Proof.
  intros He Hs. rewrite app_assoc. split.
  - unfold match_.
    rewrite (exec_app EMAIL_REGEX e (email_like_match He)).
    + now rewrite skipn_length_app, firstn_all.
    + now apply no_match_before.
  - rewrite replace_app.
    + rewrite <- (app_nil_r e) at 2. rewrite skipn_length_app.
      now rewrite app_nil_r.
    + rewrite <- (app_nil_r e) at 2. apply startsWith_app.
    + intros p1 p2 E Hp2.
      destruct (startsWith e (p2 ++ e)) eqn:Hsw; auto. exfalso.
      apply startsWith_inv in Hsw as [rest Hr].
      apply (match_at_extend EMAIL_REGEX e rest).
      * rewrite (email_like_match He). discriminate.
      * rewrite <- Hr. eapply no_match_before; eauto.
Qed.

(** C1.  For every valid e-mail [E] (a string of the pattern's language)
    and every name [N] of at least two code units that has no separator
    artifacts (it neither starts nor ends with white space or one of the
    separators the parser strips) and no e-mail-like substring of its own,
    extracting from the fragment [N], a space, [E], with no ancestors,
    gives [N] and the lower-cased [E]. *)
Theorem extract_name_then_email (N E : jsstring) :
  email_like E -> 2 <= length N -> no_artifacts N = true -> ~ has_email N ->
  extract (fragment (N ++ str " " ++ E) []) = Some (N, toLowerCase E).
Proof.
  intros HE Hlen Hclean Hno.
  destruct (match_after_name HE Hno) as [Hm Hr].
  unfold extract. cbn [fragment innerText parentElement].
  rewrite Hm, Hr, (trim_clean_space _ Hclean).
  destruct (Nat.ltb_spec (length N) 2) as [Hlt|_]; [lia|].
  rewrite replace_separators.
  rewrite (strip_separators_clean _ Hclean), (trim_clean _ Hclean).
  destruct N; [discriminate|reflexivity].
Qed.

Lemma extract_name_then_email_witness :
  email_like (str "Rahul.V@Example.COM") /\
  2 <= length (str "Rahul Verma") /\
  no_artifacts (str "Rahul Verma") = true /\
  ~ has_email (str "Rahul Verma") /\
  extract (fragment (str "Rahul Verma" ++ str " " ++ str "Rahul.V@Example.COM") [])
  = Some (str "Rahul Verma", str "rahul.v@example.com").
Proof.
  assert (HE : email_like (str "Rahul.V@Example.COM")).
  { exists (str "Rahul.V"), (str "Example"), (str "COM").
    repeat split; try discriminate. simpl. lia. }
  assert (Hno : ~ has_email (str "Rahul Verma")).
  { apply exec_none_no_email. reflexivity. }
  assert (Hlen : 2 <= length (str "Rahul Verma")) by (simpl; lia).
  split; [exact HE|]. split; [exact Hlen|].
  split; [reflexivity|]. split; [exact Hno|].
  exact (extract_name_then_email HE Hlen eq_refl Hno).
Defined.

(** C9.  A text with no e-mail-like substring is no candidate, whatever
    its ancestors are: the extractor returns nothing and the ledger is left
    as it was.  Both functions are total, so nothing is raised. *)
Theorem no_email_no_candidate (T : jsstring) (ancestors : list jsstring)
        (now : JSDate) (st : State) :
  ~ has_email T ->
  extract (fragment T ancestors) = None /\
  processNode (fragment T ancestors) now st = st.
Proof.
  intros H. apply no_email_exec_none in H.
  assert (Ht : innerText (fragment T ancestors) = T) by now destruct ancestors.
  unfold processNode, extract, test, match_. rewrite Ht, H.
  split; auto. now destruct T.
Qed.

Lemma no_email_no_candidate_witness :
  ~ has_email (str "present! ping me @ home.") /\
  extract (fragment (str "present! ping me @ home.")
                    [str "Rahul Verma: rahul@example.com"]) = None /\
  processNode (fragment (str "present! ping me @ home.")
                        [str "Rahul Verma: rahul@example.com"])
              morning initial_state = initial_state.
Proof.
  assert (H : ~ has_email (str "present! ping me @ home.")).
  { apply exec_none_no_email. reflexivity. }
  split; [exact H|].
  exact (no_email_no_candidate [str "Rahul Verma: rahul@example.com"]
                               morning initial_state H).
Defined.

(** ** The map *)

Arguments key_eqb : simpl never.

Lemma key_eqb_eq a b : key_eqb a b = true <-> a = b.
Proof.
  unfold key_eqb. destruct (list_eq_dec N.eq_dec a b); split; congruence.
Qed.

Lemma key_eqb_refl a : key_eqb a a = true.
Proof. now apply key_eqb_eq. Qed.

Lemma key_eqb_neq a b : key_eqb a b = false <-> a <> b.
Proof.
  unfold key_eqb. destruct (list_eq_dec N.eq_dec a b); split; congruence.
Qed.

Lemma map_get_set_same k v m : map_get k (map_set k v m) = Some v.
Proof.
  induction m as [|[k' v'] m IH]; simpl.
  - now rewrite key_eqb_refl.
  - destruct (key_eqb k' k) eqn:E; simpl; now rewrite E.
Qed.

Lemma map_get_set_other k k' v m :
  k <> k' -> map_get k' (map_set k v m) = map_get k' m.
Proof.
  intros Hk. induction m as [|[k0 v0] m IH]; simpl.
  - apply key_eqb_neq in Hk. now rewrite Hk.
  - destruct (key_eqb k0 k) eqn:E; simpl.
    + apply key_eqb_eq in E. subst k0.
      apply key_eqb_neq in Hk. now rewrite Hk.
    + now rewrite IH.
Qed.

Lemma map_set_keys k v m :
  map fst (map_set k v m)
  = if in_dec (list_eq_dec N.eq_dec) k (map fst m)
    then map fst m else map fst m ++ [k].
Proof.
  induction m as [|[k' v'] m IH]; simpl; auto.
  destruct (key_eqb k' k) eqn:E.
  - apply key_eqb_eq in E. subst k'.
    destruct (list_eq_dec N.eq_dec k k); [reflexivity|congruence].
  - apply key_eqb_neq in E. simpl. rewrite IH.
    destruct (list_eq_dec N.eq_dec k' k); [congruence|].
    now destruct (in_dec (list_eq_dec N.eq_dec) k (map fst m)).
Qed.

Lemma map_set_In k v m k0 r :
  In (k0, r) (map_set k v m) -> (k0 = k /\ r = v) \/ In (k0, r) m.
Proof.
  induction m as [|[k' v'] m IH]; simpl.
  - intros [[= <- <-]|[]]. auto.
  - destruct (key_eqb k' k) eqn:E; simpl.
    + apply key_eqb_eq in E. subst k'.
      intros [[= <- <-]|H]; auto.
    + intros [H|H]; auto. destruct (IH H); auto.
Qed.

Lemma map_set_NoDup k v m : NoDup (map fst m) -> NoDup (map fst (map_set k v m)).
Proof.
  intros H. rewrite map_set_keys.
  destruct (in_dec (list_eq_dec N.eq_dec) k (map fst m)) as [|Hn]; auto.
  apply NoDup_app; auto.
  - constructor; [intros []|constructor].
  - intros x Hx [<-|[]]. auto.
Qed.

Lemma map_set_length k v m : length m <= length (map_set k v m).
Proof.
  induction m as [|[k' v'] m IH]; simpl; auto.
  destruct (key_eqb k' k); simpl; lia.
Qed.

(** With distinct keys, the records filed under [k] after [m.set(k, v)]
    are [v] alone. *)
Lemma filter_key_set k v m :
  NoDup (map fst m) ->
  filter (fun kv => key_eqb (fst kv) k) (map_set k v m) = [(k, v)].
Proof.
  induction m as [|[k' v'] m IH]; intros Hnd; simpl.
  - now rewrite key_eqb_refl.
  - inversion Hnd as [|? ? Hin Hnd']; subst.
    destruct (key_eqb k' k) eqn:E; simpl; rewrite E.
    + apply key_eqb_eq in E. subst k'. f_equal.
      clear IH Hnd Hnd'. induction m as [|[k1 v1] m IH]; simpl; auto.
      destruct (key_eqb k1 k) eqn:E1.
      * apply key_eqb_eq in E1. subst k1. elim Hin. now left.
      * apply IH. intros H. apply Hin. now right.
    + now apply IH.
Qed.

Lemma filter_key_length k m :
  NoDup (map fst m) ->
  length (filter (fun kv : jsstring * Entry => key_eqb (fst kv) k) m) <= 1.
Proof.
  induction m as [|[k' v'] m IH]; intros Hnd; simpl; auto.
  inversion Hnd as [|? ? Hin Hnd']; subst.
  destruct (key_eqb k' k) eqn:E; auto.
  apply key_eqb_eq in E. subst k'. simpl.
  replace (filter _ m) with (@nil (jsstring * Entry)); auto.
  clear IH Hnd Hnd'. induction m as [|[k1 v1] m IH]; simpl; auto.
  destruct (key_eqb k1 k) eqn:E1.
  - apply key_eqb_eq in E1. subst k1. elim Hin. now left.
  - apply IH. intros H. apply Hin. now right.
Qed.

(** ** Lower case *)

Lemma is_upper_spec c : is_upper c = true <-> (65 <= c <= 90)%N.
Proof.
  unfold is_upper, in_range. rewrite andb_true_iff, !N.leb_le. reflexivity.
Qed.

Lemma lower_char_idem c : lower_char (lower_char c) = lower_char c.
Proof.
  unfold lower_char. destruct (is_upper c) eqn:E; [|now rewrite E].
  apply is_upper_spec in E.
  destruct (is_upper (c + 32)%N) eqn:E'; auto.
  apply is_upper_spec in E'. lia.
Qed.

Lemma toLowerCase_idem s : toLowerCase (toLowerCase s) = toLowerCase s.
Proof.
  unfold toLowerCase. rewrite map_map. apply map_ext, lower_char_idem.
Qed.

Lemma toLowerCase_app s t : toLowerCase (s ++ t) = toLowerCase s ++ toLowerCase t.
Proof. apply map_app. Qed.

(** ** What the extractor returns *)

Lemma local_not_at c : mem local_class c = true -> lower_char c <> chr "@".
Proof.
  intros H. unfold lower_char. destruct (is_upper c) eqn:E.
  - apply is_upper_spec in E. unfold chr. simpl. lia.
  - intros ->. discriminate.
Qed.

Lemma split_head_local l rest :
  forallb (mem local_class) l = true ->
  split_head (chr "@") (toLowerCase (l ++ chr "@" :: rest)) = toLowerCase l.
Proof.
  unfold split_head, toLowerCase. induction l as [|c l IH]; intros H.
  - reflexivity.
  - cbn [forallb] in H. apply andb_prop in H as [Hc H].
    cbn [app map takeWhile].
    apply local_not_at, N.eqb_neq in Hc. rewrite Hc. cbn [negb].
    f_equal. now apply IH.
Qed.

(** The pair that the extractor returns: a non-empty name, and the lower
    case of a string of the pattern's language found in the fragment. *)
Lemma extract_inv node n e :
  extract node = Some (n, e) ->
  n <> [] /\
  exists pre m post,
    innerText node = pre ++ m ++ post /\ email_like m /\ e = toLowerCase m.
Proof.
  unfold extract, match_.
  destruct (exec EMAIL_REGEX (innerText node)) as [[i k]|] eqn:He;
    [|discriminate].
  apply exec_some_has_email in He as (pre & m & post & Ht & <- & <- & Hm).
  assert (Hfs : firstn (length m) (skipn (length pre) (innerText node)) = m).
  { rewrite Ht, skipn_length_app. apply firstn_length_app. }
  rewrite Hfs. cbv zeta. intros [= <- <-].
  split; [|now exists pre, m, post].
  match goal with |- context [trim ?x] =>
    destruct (trim x) end; [|discriminate].
  destruct Hm as (l & d & t & -> & Hl0 & Hl & _).
  rewrite split_head_local; auto.
  destruct l; [congruence|discriminate].
Qed.

Lemma domain_local c : mem domain_class c = true -> mem local_class c = true.
Proof.
  unfold mem, domain_class, local_class. cbn [existsb].
  rewrite !orb_true_iff. tauto.
Qed.

Lemma alpha_local c : mem alpha_class c = true -> mem local_class c = true.
Proof.
  unfold mem, alpha_class, local_class. cbn [existsb].
  rewrite !orb_true_iff. tauto.
Qed.

(** Every code unit of a string of the language is in the local class or
    is the at sign. *)
Lemma email_like_units m :
  email_like m ->
  Forall (fun c => mem local_class c = true \/ c = chr "@") m.
Proof.
  intros (l & d & t & -> & _ & Hl & _ & Hd & _ & Ht).
  rewrite forallb_forall in Hl, Hd, Ht.
  apply Forall_forall. intros c Hc.
  apply in_app_or in Hc as [Hc|[<-|Hc]]; auto.
  apply in_app_or in Hc as [Hc|[<-|Hc]]; auto.
  - left. now apply domain_local, Hd.
  - left. now apply alpha_local, Ht.
Qed.

Lemma local_bounds c :
  mem local_class c = true -> (37 <= c <= 122)%N.
Proof.
  unfold mem, local_class. cbn [existsb item_mem].
  unfold in_range, chr. cbn [N_of_ascii N_of_digits].
  rewrite !orb_true_iff, !andb_true_iff, !N.leb_le, !N.eqb_eq.
  simpl. lia.
Qed.

(** A match of the pattern is made of Basic Latin code units, on which
    [toLowerCase] is the lower-casing of the letters A to Z. *)
Lemma email_match_ascii m :
  email_like m -> Forall (fun c => (c < 128)%N) m.
Proof.
  intros H. apply email_like_units in H.
  eapply Forall_impl; [|exact H]. intros c [Hc| ->].
  - apply local_bounds in Hc. lia.
  - unfold chr. simpl. lia.
Qed.

Lemma email_no_dquote m :
  email_like m -> Forall (fun c => c <> dquote) (toLowerCase m).
Proof.
  intros H. apply email_like_units in H.
  unfold toLowerCase. apply Forall_map.
  eapply Forall_impl; [|exact H]. intros c Hc.
  assert (Hb : (37 <= c <= 122)%N).
  { destruct Hc as [Hc| ->]; [now apply local_bounds|].
    unfold chr. simpl. lia. }
  unfold lower_char, dquote. destruct (is_upper c); lia.
Qed.

(** ** The ledger under every sequence of events *)

Lemma ledger_ok_record n e now st :
  n <> [] -> (exists m, email_like m /\ e = toLowerCase m) ->
  ledger_ok (attendanceMap st) ->
  ledger_ok (attendanceMap (recordAttendance n e now st)).
Proof.
  intros Hn He [Hnd Hin]. split; cbn [recordAttendance attendanceMap].
  - now apply map_set_NoDup.
  - intros k r H. apply map_set_In in H as [[-> ->]|H]; auto.
Qed.

Lemma ledger_ok_processNode node now st :
  ledger_ok (attendanceMap st) ->
  ledger_ok (attendanceMap (processNode node now st)).
Proof.
  intros H. unfold processNode, parseCandidateNode.
  destruct (innerText node); auto.
  destruct (test EMAIL_REGEX _); auto.
  destruct (extract node) as [[n e]|] eqn:E; auto.
  apply extract_inv in E as (Hn & pre & m & post & _ & Hm & ->).
  apply ledger_ok_record; auto. now exists m.
Qed.

Lemma ledger_ok_handleMutations added st :
  ledger_ok (attendanceMap st) ->
  ledger_ok (attendanceMap (handleMutations added st)).
Proof.
  unfold handleMutations. destruct (isRunning st); auto.
  revert st. induction added as [|nd added IH]; intros st H; simpl; auto.
  apply IH. now apply ledger_ok_processNode.
Qed.

Lemma ledger_ok_nil : ledger_ok [].
Proof. split; [constructor|intros k r []]. Qed.

Lemma ledger_ok_step st ev :
  ledger_ok (attendanceMap st) -> ledger_ok (attendanceMap (step st ev)).
Proof.
  intros H. destruct ev as [[a nm] now|added]; cbn [step].
  - unfold onMessage. cbn [action request_meetingName].
    destruct a; cbn; auto using ledger_ok_nil.
    unfold startAttendance. destruct (isRunning st); auto.
  - now apply ledger_ok_handleMutations.
Qed.

Lemma ledger_ok_run evs :
  forall st, ledger_ok (attendanceMap st) ->
             ledger_ok (attendanceMap (run evs st)).
Proof.
  unfold run. induction evs as [|ev evs IH]; intros st H; simpl; auto.
  apply IH. now apply ledger_ok_step.
Qed.

Lemma ledger_ok_reachable evs : ledger_ok (attendanceMap (run evs initial_state)).
Proof. apply ledger_ok_run, ledger_ok_nil. Qed.

Lemma records_for_keys k m :
  ledger_ok m ->
  records_for k m = filter (fun kv => key_eqb (fst kv) k) m.
Proof.
  intros [_ H]. unfold records_for. apply filter_ext_in.
  intros [k' r] Hin. simpl.
  destruct (H _ _ Hin) as (_ & _ & e & _ & ->).
  now rewrite toLowerCase_idem.
Qed.

(** ** Upsert *)

(** C3, against the claim as stated: [recordAttendance] does not change
    the case of its e-mail argument.  After the upsert of [A@B.CO] into the
    empty ledger there is no record under [a@b.co]; the one record is
    keyed by, and carries, [A@B.CO]. *)
Lemma recordAttendance_keeps_case :
  ~ (exists r,
        map_get (toLowerCase (str "A@B.CO"))
                (attendanceMap
                   (recordAttendance (str "Asha") (str "A@B.CO") morning
                                     initial_state)) = Some r /\
        email r = toLowerCase (str "A@B.CO")).
Proof. intros (r & H & _). discriminate H. Qed.

(** C3, amended.  [recordAttendance] files the record under the e-mail
    argument exactly as supplied, and the record's e-mail field is that same
    string; the lower-casing is done by the extractor before the call, so
    every e-mail the extractor returns is in lower case, and in every state
    that the script reaches every key is in lower case and equals the
    e-mail field of its record. *)
Theorem recordAttendance_files_under_argument
        (n e : jsstring) (now : JSDate) (st : State)
        (node : Node) (evs : list Event) :
  (exists r,
      map_get e (attendanceMap (recordAttendance n e now st)) = Some r /\
      email r = e /\ name r = n) /\
  (forall n' e', extract node = Some (n', e') -> toLowerCase e' = e') /\
  (forall k r, In (k, r) (attendanceMap (run evs initial_state)) ->
               email r = k /\ toLowerCase k = k).
Proof.
  split; [|split].
  - eexists. split.
    + cbn [recordAttendance attendanceMap]. apply map_get_set_same.
    + split; reflexivity.
  - intros n' e' H.
    apply extract_inv in H as (_ & pre & m & post & _ & _ & ->).
    apply toLowerCase_idem.
  - intros k r H.
    destruct (proj2 (ledger_ok_reachable evs) _ _ H) as (Hk & _ & m & _ & ->).
    split; [exact Hk|apply toLowerCase_idem].
Qed.

Lemma recordAttendance_files_under_argument_witness :
  extract (fragment (str "Asha A@B.CO") []) = Some (str "Asha", str "a@b.co") /\
  toLowerCase (str "a@b.co") = str "a@b.co" /\
  exists r,
    map_get (str "A@B.CO")
            (attendanceMap (recordAttendance (str "Asha") (str "A@B.CO")
                                             morning initial_state)) = Some r /\
    email r = str "A@B.CO" /\ name r = str "Asha".
Proof.
  pose proof (recordAttendance_files_under_argument
                (str "Asha") (str "A@B.CO") morning initial_state
                (fragment (str "Asha A@B.CO") []) []) as (H1 & H2 & _).
  split; [reflexivity|]. split; [|exact H1].
  exact (H2 (str "Asha") (str "a@b.co") eq_refl).
Defined.

(** C5, against the claim as stated: [A@b.co] and [a@b.co] normalize to
    the same key, and after the two upserts the ledger holds two records
    for it, not one. *)
Lemma upserts_differing_in_case :
  toLowerCase (str "A@b.co") = toLowerCase (str "a@b.co") /\
  length (records_for
            (toLowerCase (str "A@b.co"))
            (attendanceMap
               (recordAttendance (str "Asha B") (str "a@b.co") evening
                  (recordAttendance (str "Asha") (str "A@b.co") morning
                                    initial_state)))) <> 1.
Proof. split; [reflexivity|discriminate]. Qed.

(** C5, amended.  In every state reached by a sequence of events the
    ledger holds at most one record per normalized e-mail.  The upsert
    files a record under the e-mail as passed: from such a state, two
    upserts of the same e-mail leave exactly one record for it, with the
    second name and the time and date of the second instant; so do two
    fragments from which the extractor returns the same normalized e-mail;
    and an upsert never removes a record. *)
Theorem ledger_one_record_per_key
        (evs : list Event) (n1 n2 e : jsstring) (t1 t2 : JSDate)
        (node1 node2 : Node) :
  let st := run evs initial_state in
  let latest :=
    {| name := n2; email := e; time := toLocaleTimeString t2;
       date := dateStr t2; timestamp := getTime t2 |} in
  (forall k, length (records_for k (attendanceMap st)) <= 1) /\
  filter (fun kv => key_eqb (fst kv) e)
         (attendanceMap
            (recordAttendance n2 e t2 (recordAttendance n1 e t1 st)))
  = [(e, latest)] /\
  (extract node1 = Some (n1, e) -> extract node2 = Some (n2, e) ->
   records_for e
     (attendanceMap
        (parseCandidateNode node2 t2 (parseCandidateNode node1 t1 st)))
   = [(e, latest)]) /\
  (forall k, map_get k (attendanceMap st) <> None ->
             map_get k (attendanceMap (recordAttendance n1 e t1 st)) <> None) /\
  length (attendanceMap st)
  <= length (attendanceMap (recordAttendance n1 e t1 st)).
Proof.
  intros st latest.
  pose proof (ledger_ok_reachable evs) as Hok. fold st in Hok.
  assert (Hfilter :
            filter (fun kv => key_eqb (fst kv) e)
              (attendanceMap
                 (recordAttendance n2 e t2 (recordAttendance n1 e t1 st)))
            = [(e, latest)]).
  { cbn [recordAttendance attendanceMap].
    apply filter_key_set, map_set_NoDup, Hok. }
  split; [|split; [|split; [|split]]].
  - intros k. rewrite records_for_keys by exact Hok.
    apply filter_key_length, Hok.
  - exact Hfilter.
  - intros H1 H2. unfold parseCandidateNode. rewrite H1, H2.
    rewrite records_for_keys; [exact Hfilter|].
    apply extract_inv in H1 as (Hn1 & _ & m1 & _ & _ & Hm1 & He1).
    apply extract_inv in H2 as (Hn2 & _ & m2 & _ & _ & Hm2 & He2).
    apply ledger_ok_record; [auto|now exists m2|].
    apply ledger_ok_record; [auto|now exists m1|exact Hok].
  - intros k Hk. cbn [recordAttendance attendanceMap].
    destruct (list_eq_dec N.eq_dec e k) as [->|Hne].
    + rewrite map_get_set_same. discriminate.
    + now rewrite map_get_set_other.
  - cbn [recordAttendance attendanceMap]. apply map_set_length.
Qed.

Lemma ledger_one_record_per_key_witness :
  extract (fragment (str "Asha A@b.co") []) = Some (str "Asha", str "a@b.co") /\
  extract (fragment (str "Asha B a@b.co") []) = Some (str "Asha B", str "a@b.co") /\
  records_for (str "a@b.co")
    (attendanceMap
       (parseCandidateNode (fragment (str "Asha B a@b.co") []) evening
          (parseCandidateNode (fragment (str "Asha A@b.co") []) morning
             (run sample_session initial_state))))
  = [(str "a@b.co",
      {| name := str "Asha B"; email := str "a@b.co";
         time := str "09:05 PM"; date := str "17/12/2026";
         timestamp := 1797541500000 |})] /\
  map_get (str "john@example.com")
          (attendanceMap (run sample_session initial_state)) <> None /\
  map_get (str "john@example.com")
          (attendanceMap
             (recordAttendance (str "Asha") (str "a@b.co") morning
                               (run sample_session initial_state))) <> None.
Proof.
  destruct (ledger_one_record_per_key
              sample_session (str "Asha") (str "Asha B") (str "a@b.co")
              morning evening
              (fragment (str "Asha A@b.co") [])
              (fragment (str "Asha B a@b.co") []))
    as (_ & _ & Hobs & Hkeep & _).
  assert (Hpre : map_get (str "john@example.com")
                   (attendanceMap (run sample_session initial_state)) <> None)
    by (vm_compute; discriminate).
  split; [reflexivity|]. split; [reflexivity|].
  split; [exact (Hobs eq_refl eq_refl)|].
  split; [exact Hpre|exact (Hkeep _ Hpre)].
Defined.

(** ** Control functions *)

(** C6.  From every state, [restartAttendance] yields a ledger with no
    records that is not running, with the meeting name and the start
    timestamp cleared; the status it returns says the same. *)
Theorem restart_clears (st : State) :
  let st' := fst (restartAttendance st) in
  let s := snd (restartAttendance st) in
  count s = 0 /\ status_isRunning s = false /\
  attendanceMap st' = [] /\ isRunning st' = false /\
  meetingName st' = [] /\ startTimestamp st' = None /\
  status_meetingName s = [] /\ sessionStarted s = false /\
  s = getStatus st'.
Proof. cbn. repeat split. Qed.

(** C7.  Whatever the state, after one [startAttendance] a second one
    changes nothing: it returns the status of the state it found, and in
    particular the start timestamp stays as the first call left it.  A
    [startAttendance] that finds the ledger running leaves the whole state
    as it is and returns its status. *)
Theorem start_idempotent
        (st : State) (name1 name2 : option jsstring) (now1 now2 : JSDate) :
  let st1 := fst (startAttendance name1 now1 st) in
  let st2 := fst (startAttendance name2 now2 st1) in
  startAttendance name2 now2 st1 = (st1, getStatus st1) /\
  startTimestamp st2 = startTimestamp st1 /\
  (isRunning st = true ->
   startAttendance name1 now1 st = (st, getStatus st)).
Proof.
  cbn zeta.
  assert (H1 : isRunning (fst (startAttendance name1 now1 st)) = true).
  { unfold startAttendance. destruct (isRunning st) eqn:E; auto. }
  assert (H2 : forall s, isRunning s = true ->
                         startAttendance name2 now2 s = (s, getStatus s)).
  { intros s Hs. unfold startAttendance. now rewrite Hs. }
  split; [now apply H2|]. split.
  - now rewrite H2.
  - intros Hr. unfold startAttendance. now rewrite Hr.
Qed.

Lemma start_idempotent_witness :
  isRunning (run sample_session initial_state) = true /\
  startAttendance (Some (str "Renamed")) evening
                  (run sample_session initial_state)
  = (run sample_session initial_state,
     getStatus (run sample_session initial_state)).
Proof.
  destruct (start_idempotent (run sample_session initial_state)
              (Some (str "Renamed")) None evening evening) as (_ & _ & H).
  split; [reflexivity|exact (H eq_refl)].
Defined.

(** C10.  With no records in the ledger the CSV text is the header line
    alone, with no line feed after it, whatever name is passed. *)
Theorem empty_ledger_csv
        (providedName : option jsstring) (now : JSDate) (st : State) :
  attendanceMap st = [] ->
  csvContent (generateCSV providedName now st) = str "Name,Email,Time,Date".
Proof.
  intros H. unfold generateCSV. cbn [csvContent]. rewrite H. reflexivity.
Qed.

Lemma empty_ledger_csv_witness :
  attendanceMap (fst (restartAttendance (run sample_session initial_state))) = [] /\
  csvContent (generateCSV (Some (str "Daily Standup")) evening
                (fst (restartAttendance (run sample_session initial_state))))
  = str "Name,Email,Time,Date".
Proof.
  split; [reflexivity|].
  exact (empty_ledger_csv (Some (str "Daily Standup")) evening
           (fst (restartAttendance (run sample_session initial_state)))
           eq_refl).
Defined.

(** ** The CSV text *)

Lemma replace_quotes s :
  replace_all QUOTE_REGEX [dquote; dquote] s = double_quotes s.
Proof.
  rewrite (@replace_all_units QUOTE_REGEX (fun c => N.eqb c dquote)).
  - induction s as [|c s IH]; [reflexivity|].
    cbn [flat_map double_quotes]. rewrite IH.
    now destruct (N.eqb c dquote).
  - intros bol c t. unfold QUOTE_REGEX, plain, match_pattern, match_alternative.
    cbn [from_start body to_end rmatch andb].
    replace (mem [Single "034"%char] c) with (N.eqb c dquote).
    + now destruct (N.eqb c dquote).
    + unfold mem. cbn [existsb item_mem]. now rewrite orb_false_r.
  - reflexivity.
Qed.

Lemma csv_row_line r : join (str ",") (csv_row r) = csv_line r.
Proof.
  unfold csv_row, csv_line, csv_quoted. cbn [join].
  rewrite replace_quotes. cbn [app]. now rewrite <- !app_assoc.
Qed.

Lemma double_quotes_plain s :
  Forall (fun c => c <> dquote) s -> double_quotes s = s.
Proof.
  induction 1 as [|c s Hc _ IH]; simpl; auto.
  apply N.eqb_neq in Hc. now rewrite Hc, IH.
Qed.

(** C4, against the claim as stated: a stored e-mail with a double quote
    inside is written to the CSV text as it is, the quote not doubled; the
    name next to it does have its quote doubled. *)
Lemma csv_email_not_escaped :
  csvContent (generateCSV None morning quoted_state)
  <> csv_text csv_line_escaped (attendanceMap quoted_state) /\
  csvContent (generateCSV None morning quoted_state)
  = str "Name,Email,Time,Date" ++ [newline]
    ++ [dquote] ++ str "O" ++ [dquote; dquote] ++ str "Brien" ++ [dquote]
    ++ str "," ++ [dquote] ++ str "o" ++ [dquote] ++ str "b@example.com"
    ++ [dquote] ++ str ",09:00 AM,07/01/2026".
Proof. split; [discriminate|reflexivity]. Qed.

(** C4, amended.  In every CSV rendering of every ledger state each
    record's name is wrapped in double quotes with every double quote
    inside it doubled, the e-mail is wrapped in double quotes as it is
    stored, and time and date are not quoted; the stored name O, double
    quote, Brien is rendered with the quote doubled.  In the states that
    the script reaches no stored e-mail holds a double quote, so there the
    e-mail field is the escaped one as well. *)
Theorem csv_fields
        (providedName : option jsstring) (now : JSDate) (st : State)
        (evs : list Event) :
  csvContent (generateCSV providedName now st)
  = csv_text csv_line (attendanceMap st) /\
  csv_quoted obrien
  = [dquote] ++ str "O" ++ [dquote; dquote] ++ str "Brien" ++ [dquote] /\
  (forall k r, In (k, r) (attendanceMap (run evs initial_state)) ->
               csv_line r = csv_line_escaped r).
Proof.
  split; [|split].
  - unfold generateCSV, csv_text. cbn [csvContent].
    f_equal. f_equal. rewrite map_map. apply map_ext.
    intros [k r]. apply csv_row_line.
  - reflexivity.
  - intros k r H.
    destruct (proj2 (ledger_ok_reachable evs) _ _ H) as (Hk & _ & m & Hm & ->).
    unfold csv_line, csv_line_escaped, csv_quoted.
    rewrite (double_quotes_plain (s := email r)); auto.
    rewrite Hk. now apply email_no_dquote.
Qed.

Lemma csv_fields_witness :
  In (str "john@example.com",
      {| name := str "John Doe"; email := str "john@example.com";
         time := str "09:00 AM"; date := str "07/01/2026";
         timestamp := 1767776400000 |})
     (attendanceMap (run sample_session initial_state)) /\
  csvContent (generateCSV None morning (run sample_session initial_state))
  = str "Name,Email,Time,Date" ++ [newline]
    ++ [dquote] ++ str "John Doe" ++ [dquote] ++ str ","
    ++ [dquote] ++ str "john@example.com" ++ [dquote]
    ++ str ",09:00 AM,07/01/2026".
Proof.
  destruct (csv_fields None morning (run sample_session initial_state)
                       sample_session) as (H1 & _ & H3).
  assert (Hin : In (str "john@example.com",
      {| name := str "John Doe"; email := str "john@example.com";
         time := str "09:00 AM"; date := str "07/01/2026";
         timestamp := 1767776400000 |})
     (attendanceMap (run sample_session initial_state))) by (left; reflexivity).
  split; [exact Hin|].
  rewrite H1. unfold csv_text.
  change (attendanceMap (run sample_session initial_state))
    with [(str "john@example.com",
      {| name := str "John Doe"; email := str "john@example.com";
         time := str "09:00 AM"; date := str "07/01/2026";
         timestamp := 1767776400000 |})].
  cbn [map snd]. rewrite (H3 _ _ Hin). reflexivity.
Defined.

(** ** The file name *)

Lemma all_below_spec f n :
  all_below f n = true ->
  forall z, (0 <= z < Z.of_nat n)%Z -> f z = true.
Proof.
  induction n as [|n IH]; intros H z Hz; [lia|].
  cbn [all_below] in H. apply andb_prop in H as [H0 H].
  destruct (Z.eq_dec z (Z.of_nat n)) as [->|Hne]; auto.
  apply IH; auto. lia.
Qed.

Lemma pad2_two_digits z : (0 <= z < 100)%Z -> pad2 z = two_digits z.
Proof.
  intros Hz. apply key_eqb_eq.
  apply (all_below_spec (fun z => key_eqb (pad2 z) (two_digits z)) 100);
    [vm_compute; reflexivity|lia].
Qed.

Lemma String_four_digits z :
  (1000 <= z < 10000)%Z -> String_ z = four_digits z.
Proof.
  intros Hz.
  assert (H : (z <? 1000)%Z || key_eqb (String_ z) (four_digits z) = true).
  { apply (all_below_spec
             (fun z => (z <? 1000)%Z || key_eqb (String_ z) (four_digits z))
             (Z.to_nat 10000)); [vm_compute; reflexivity|].
    rewrite Z2Nat.id; lia. }
  apply orb_prop in H as [H|H]; [apply Z.ltb_lt in H; lia|].
  now apply key_eqb_eq.
Qed.

Lemma hour12_rem h :
  (0 <= h < 24)%Z ->
  (if Z.eqb (Z.rem h 12) 0 then 12 else Z.rem h 12)%Z = hour12 h /\
  (1 <= hour12 h <= 12)%Z.
Proof.
  intros Hh. rewrite Z.rem_mod_nonneg by lia. unfold hour12.
  destruct (Z.eqb_spec h 0) as [->|H0]; [split; [reflexivity|lia]|].
  destruct (Z.leb_spec h 12) as [H12|H12].
  - destruct (Z.eq_dec h 12) as [->|Hne]; [split; [reflexivity|lia]|].
    rewrite Z.mod_small by lia.
    destruct (Z.eqb_spec h 0); [lia|]. split; [reflexivity|lia].
  - replace (h mod 12)%Z with (h - 12)%Z.
    + destruct (Z.eqb_spec (h - 12) 0); [lia|]. split; [reflexivity|lia].
    + apply Z.mod_unique with (q := 1%Z); lia.
Qed.

Lemma ampm_meridiem h :
  (if Z.leb 12 h then str "PM" else str "AM") = meridiem h.
Proof.
  unfold meridiem. destruct (Z.leb_spec 12 h), (Z.ltb_spec h 12); auto; lia.
Qed.

Lemma replace_unsafe n :
  replace_all UNSAFE_REGEX (str "_") n
  = flat_map (fun c => if negb (mem filename_class c) then str "_" else [c]) n.
Proof.
  apply replace_all_units.
  - intros bol c t. unfold UNSAFE_REGEX, plain, match_pattern, match_alternative.
    cbn [from_start body to_end rmatch andb].
    now destruct (mem filename_class c).
  - reflexivity.
Qed.

Lemma sanitize_map n :
  replace_all UNSAFE_REGEX (str "_") n = map safe_char n.
Proof.
  rewrite replace_unsafe. induction n as [|c n IH]; [reflexivity|].
  cbn [flat_map map]. rewrite IH. unfold safe_char.
  replace (mem filename_class c)
    with (in_range 65%N 90%N c || in_range 97%N 122%N c
          || in_range 48%N 57%N c
          || N.eqb c (chr "-") || N.eqb c (chr "_") || N.eqb c (chr " ")).
  - now destruct (_ || _).
  - unfold mem, filename_class. cbn [existsb item_mem].
    change (chr "a") with 97%N. change (chr "z") with 122%N.
    change (chr "A") with 65%N. change (chr "Z") with 90%N.
    change (chr "0") with 48%N. change (chr "9") with 57%N.
    destruct (in_range 65%N 90%N c), (in_range 97%N 122%N c),
      (in_range 48%N 57%N c),
      (N.eqb c (chr "-")), (N.eqb c (chr "_")), (N.eqb c (chr " "));
      reflexivity.
Qed.

Lemma wall_clock_inv now :
  wall_clock now = true ->
  (1 <= getDate now <= 31 /\ 0 <= getMonth now <= 11 /\
   1000 <= getFullYear now <= 9999 /\ 0 <= getHours now <= 23 /\
   0 <= getMinutes now <= 59)%Z.
Proof.
  unfold wall_clock. rewrite !andb_true_iff, !Z.leb_le. lia.
Qed.

(** C8.  At every wall-clock instant and in every ledger state the file
    name is: the name in use (the one passed with the request, else the
    session's) with every code unit outside letters, digits, hyphen,
    underscore and space replaced by an underscore and one underscore after
    it, or nothing at all when both names are empty; then day, month and
    year of the instant as DD-MM-YYYY, an underscore, hour of the
    twelve-hour clock and minute as HH-MM, the half of the day; then
    [.csv].  The start timestamp of the session has no part in it. *)
Theorem filename_format
        (providedName : option jsstring) (now : JSDate) (st : State) :
  wall_clock now = true ->
  filename (generateCSV providedName now st)
  = name_part (export_name providedName st) ++ clock_part now ++ str ".csv".
Proof.
  intros H. apply wall_clock_inv in H as (Hd & Hm & Hy & Hh & Hmin).
  unfold generateCSV. cbn [filename]. cbv zeta.
  rewrite (@pad2_two_digits (getDate now)) by lia.
  rewrite (@pad2_two_digits (getMonth now + 1)) by lia.
  rewrite (@pad2_two_digits (getMinutes now)) by lia.
  rewrite String_four_digits by lia.
  destruct (@hour12_rem (getHours now)) as [-> Hh12]; [lia|].
  rewrite (@pad2_two_digits (hour12 (getHours now))) by lia.
  rewrite ampm_meridiem. unfold clock_part.
  rewrite <- !app_assoc. f_equal.
  unfold export_name, name_part, truthy_text.
  destruct providedName as [[|c n]|]; destruct (meetingName st);
    try reflexivity; now rewrite sanitize_map.
Qed.

Lemma filename_format_witness :
  wall_clock morning = true /\
  filename (generateCSV (Some (str "Stand-up: 1/2")) morning
                        (run sample_session initial_state))
  = str "Stand-up_ 1_2_07-01-2026_09-00-AM.csv" /\
  filename (generateCSV None evening initial_state)
  = str "17-12-2026_09-05-PM.csv".
Proof.
  split; [reflexivity|]. split.
  - exact (@filename_format (Some (str "Stand-up: 1/2")) morning
             (run sample_session initial_state) eq_refl).
  - exact (@filename_format None evening initial_state eq_refl).
Defined.

(** ** Ancestor widening *)

Lemma parentElement_fragment text t up :
  parentElement (fragment text (t :: up)) = Some (fragment t up).
Proof. reflexivity. Qed.

Lemma innerText_fragment text ancestors :
  innerText (fragment text ancestors) = text.
Proof. now destruct ancestors. Qed.

(** For a match that is already in lower case the loop of
    [parseCandidateNode] is the walk of the rule. *)
Lemma widen_lower_case m :
  toLowerCase m = m ->
  forall fuel text ancestors best,
    widen fuel (parentElement (fragment text ancestors)) (toLowerCase m) m best
    = walk fuel ancestors m best.
Proof.
  intros Hm. rewrite Hm.
  induction fuel as [|fuel IH]; intros text ancestors best.
  - now destruct ancestors.
  - destruct ancestors as [|t up]; [reflexivity|].
    rewrite parentElement_fragment. cbn [widen walk].
    rewrite innerText_fragment.
    destruct (includes m t); [|apply IH].
    destruct (Nat.ltb (length best) _); [|apply IH].
    destruct (Nat.ltb 2 _); [reflexivity|apply IH].
Qed.

(** C2, where the code departs from the rule.  The leaf is the e-mail
    [Rahul@Example.com] alone and its parent reads
    [Rahul Verma: Rahul@Example.com].  The parent contains the matched
    e-mail, and its text without the e-mail, trimmed, is longer than the
    empty name, so the rule adopts it and the name is [Rahul Verma].
    [parseCandidateNode] looks for the lower-cased e-mail in the parent,
    does not find it, and falls back to the local part [rahul]. *)
Theorem widening_misses_mixed_case :
  match_ EMAIL_REGEX (str "Rahul@Example.com") = Some (str "Rahul@Example.com") /\
  includes (str "Rahul@Example.com") (str "Rahul Verma: Rahul@Example.com")
  = true /\
  trim (strip_separators
          (walk 3 [str "Rahul Verma: Rahul@Example.com"]
                (str "Rahul@Example.com") []))
  = str "Rahul Verma" /\
  includes (toLowerCase (str "Rahul@Example.com"))
           (str "Rahul Verma: Rahul@Example.com") = false /\
  extract (fragment (str "Rahul@Example.com")
                    [str "Rahul Verma: Rahul@Example.com"])
  = Some (str "rahul", str "rahul@example.com").
Proof. repeat split. Qed.

(** The scenario of the rule, with the e-mail in lower case. *)
Lemma widening_scenario :
  extract (fragment (str "rahul@example.com")
                    [str "Rahul Verma: rahul@example.com"])
  = Some (str "Rahul Verma", str "rahul@example.com").
Proof. reflexivity. Qed.

(** An ancestor that holds the lower-cased e-mail but not the matched one
    is taken, and nothing is removed from its text. *)
Lemma widening_takes_other_case :
  includes (str "A@b.co") (str "Bob a@b.co") = false /\
  extract (fragment (str "A@b.co") [str "Bob a@b.co"])
  = Some (str "Bob a@b.co", str "a@b.co").
Proof. split; reflexivity. Qed.

(** * Further properties of content.js *)

(** ** The fast check and the match *)

(** X1.  The fast check of [processNode] accepts exactly the texts that
    have a substring of the form local part, at sign, domain, dot, two or
    more letters. *)
Theorem test_accepts_emails (s : jsstring) :
  test EMAIL_REGEX s = true <-> has_email s.
Proof.
  unfold test. split.
  - destruct (exec EMAIL_REGEX s) as [[i n]|] eqn:He; [|discriminate].
    intros _.
    apply exec_some_has_email in He as (pre & e & post & -> & _ & _ & He).
    now exists pre, e, post.
  - intros H. apply has_email_exec in H.
    now destruct (exec EMAIL_REGEX s).
Qed.

Lemma test_accepts_emails_witness :
  has_email (str "here: Rahul.V@Example.COM, thanks").
Proof.
  apply (proj1 (test_accepts_emails _)). reflexivity.
Defined.

Lemma rep_min_le p (k : jsstring -> option nat) :
  forall s min min' r,
    rep p min s k = Some r -> min' <= min -> rep p min' s k = Some r.
Proof.
  induction s as [|c s IH]; intros min min' r H Hle; simpl in *.
  - destruct (Nat.eqb_spec min 0); [|discriminate].
    assert (min' = 0) by lia. now subst.
  - destruct (p c).
    + destruct (rep p (pred min) s k) as [n|] eqn:Hr.
      * rewrite (IH (pred min) (pred min') n Hr) by lia. exact H.
      * destruct (Nat.eqb_spec min 0); [|discriminate].
        assert (min' = 0) by lia. subst. simpl in *. now rewrite Hr.
    + destruct (Nat.eqb_spec min 0); [|discriminate].
      assert (min' = 0) by lia. now subst.
Qed.

Lemma rep_zero_final p s : rep p 0 s (fun _ => Some 0) <> None.
Proof.
  induction s as [|c s IH]; simpl; [discriminate|].
  destruct (p c); [|discriminate].
  destruct (rep p 0 s _); [discriminate|contradiction].
Qed.

(** A repetition with nothing after it takes the whole run. *)
Lemma rep_final p :
  forall s min r,
    rep p min s (fun _ => Some 0) = Some r -> r = length (takeWhile p s).
Proof.
  induction s as [|c s IH]; intros min r H; simpl in *.
  - destruct (Nat.eqb min 0); congruence.
  - destruct (p c).
    + destruct (rep p (pred min) s _) as [n|] eqn:Hr.
      * apply IH in Hr. simpl. congruence.
      * destruct (Nat.eqb_spec min 0); [subst|discriminate].
        simpl in Hr. now apply rep_zero_final in Hr.
    + destruct (Nat.eqb min 0); simpl; congruence.
Qed.

Lemma takeWhile_app_length p t rest :
  forallb p t = true ->
  length (takeWhile p (t ++ rest)) = length t ->
  forall c rest', rest = c :: rest' -> p c = false.
Proof.
  induction t as [|a t IH]; simpl; intros Ht Hlen c rest' ->.
  - simpl in Hlen. destruct (p c); [discriminate|reflexivity].
  - apply andb_prop in Ht as [Ha Ht]. rewrite Ha in Hlen. simpl in Hlen.
    eapply IH; eauto.
Qed.

(** The match ends where the run of letters ends. *)
Lemma match_email_like_tight s n :
  match_at EMAIL_REGEX s = Some n ->
  exists e rest,
    s = e ++ rest /\ length e = n /\ email_like e /\
    forall c rest', rest = c :: rest' -> mem alpha_class c = false.
Proof.
  unfold match_at, EMAIL_REGEX. cbn [rmatch]. intros H.
  apply rep_inv in H as (l & v1 & r1 & -> & Hl & Hl1 & H & ->).
  destruct v1 as [|c1 v1]; [discriminate|].
  destruct (mem [Single "@"%char] c1) eqn:Hc1; [|discriminate].
  apply single_mem in Hc1. subst c1.
  destruct (rep (mem domain_class) 1 v1 _) as [r2|] eqn:H2; [|discriminate].
  injection H as <-.
  apply rep_inv in H2 as (d & v2 & r3 & -> & Hd & Hd1 & H & ->).
  destruct v2 as [|c2 v2]; [discriminate|].
  destruct (mem [Single "."%char] c2) eqn:Hc2; [|discriminate].
  apply single_mem in Hc2. subst c2.
  destruct (rep (mem alpha_class) 2 v2 _) as [r4|] eqn:H4; [|discriminate].
  injection H as <-.
  pose proof (rep_final _ _ _ H4) as Hrun.
  apply rep_inv in H4 as (t & rest & r5 & -> & Ht & Ht2 & H & ->).
  injection H as <-.
  exists (l ++ chr "@" :: d ++ chr "." :: t), rest. repeat split.
  - rewrite <- app_assoc. simpl. rewrite <- app_assoc. reflexivity.
  - rewrite length_app. simpl. rewrite length_app. simpl. lia.
  - exists l, d, t. repeat split; auto.
    + destruct l; [simpl in Hl1; lia|discriminate].
    + destruct d; [simpl in Hd1; lia|discriminate].
  - apply (@takeWhile_app_length (mem alpha_class) t rest Ht). lia.
Qed.

(** One more local-part code unit in front of a match is a match. *)
Lemma match_at_grow c s n :
  mem local_class c = true ->
  match_at EMAIL_REGEX s = Some n ->
  match_at EMAIL_REGEX (c :: s) = Some (S n).
Proof.
  unfold match_at, EMAIL_REGEX. cbn [rmatch rep]. intros Hc H.
  rewrite Hc. cbn [pred].
  now rewrite (rep_min_le _ _ _ H (Nat.le_0_l 1)).
Qed.

Lemma exec_leftmost (r : regex) :
  forall s i n,
    exec r s = Some (i, n) ->
    exists pre post,
      s = pre ++ post /\ length pre = i /\ match_at r post = Some n /\
      forall p1 p2, pre = p1 ++ p2 -> p2 <> [] ->
                    match_at r (p2 ++ post) = None.
Proof.
  induction s as [|c s IH]; intros i n H; simpl in H.
  - destruct (match_at r []) eqn:Hm; [|discriminate].
    injection H as <- <-. exists [], []. repeat split; auto.
    intros p1 p2 E. destruct p1, p2; try discriminate. congruence.
  - destruct (match_at r (c :: s)) eqn:Hm.
    + injection H as <- <-. exists [], (c :: s). repeat split; auto.
      intros p1 p2 E. destruct p1, p2; try discriminate. congruence.
    + destruct (exec r s) as [[j m]|] eqn:He; [|discriminate].
      injection H as <- <-.
      destruct (IH _ _ eq_refl) as (pre & post & -> & <- & Hp & Hleft).
      exists (c :: pre), post. repeat split; auto.
      intros p1 p2 E Hp2. destruct p1 as [|a p1].
      * simpl in E. subst p2. exact Hm.
      * injection E as <- ->. exact (Hleft p1 p2 eq_refl Hp2).
Qed.

(** X2.  The match that [parseCandidateNode] works with is the leftmost
    one, it takes the whole local part (the code unit before it, if any, is
    not a local-part character), and its last label takes the whole run of
    letters (the code unit after it, if any, is not a letter). *)
Theorem match_boundaries (s : jsstring) (i n : nat) :
  exec EMAIL_REGEX s = Some (i, n) ->
  exists pre m post,
    s = pre ++ m ++ post /\ length pre = i /\ length m = n /\
    match_ EMAIL_REGEX s = Some m /\ email_like m /\
    (forall p1 p2, pre = p1 ++ p2 -> p2 <> [] ->
                   match_at EMAIL_REGEX (p2 ++ m ++ post) = None) /\
    (forall pre' c, pre = pre' ++ [c] -> mem local_class c = false) /\
    (forall c post', post = c :: post' -> mem alpha_class c = false).
Proof.
  intros H. pose proof H as He.
  apply exec_leftmost in H as (pre & rest & -> & Hi & Hm & Hleft).
  pose proof Hm as Hm'.
  apply match_email_like_tight in Hm as (m & post & -> & Hn & Hlike & Hpost).
  exists pre, m, post. repeat split; auto.
  - unfold match_. rewrite He, <- Hi, <- Hn.
    now rewrite skipn_length_app, firstn_length_app.
  - intros pre' c -> .
    destruct (mem local_class c) eqn:Hc; auto.
    pose proof (match_at_grow c _ Hc Hm') as Hg.
    specialize (Hleft pre' [c] eq_refl ltac:(discriminate)).
    simpl in Hleft. congruence.
Qed.

Lemma match_boundaries_witness :
  exists pre m post,
    str "x a.b@c.d.ef.g hi" = pre ++ m ++ post /\
    match_ EMAIL_REGEX (str "x a.b@c.d.ef.g hi") = Some m /\
    (forall pre' c, pre = pre' ++ [c] -> mem local_class c = false) /\
    (forall c post', post = c :: post' -> mem alpha_class c = false).
Proof.
  destruct (@match_boundaries (str "x a.b@c.d.ef.g hi") 2 10 eq_refl)
    as (pre & m & post & H1 & _ & _ & H2 & _ & _ & H3 & H4).
  now exists pre, m, post.
Defined.

(** ** What [parseCandidateNode] records *)

(** X3.  [parseCandidateNode] records something for every fragment whose
    text has an e-mail-like substring, and what it records is a name that
    is not empty together with the lower case of an e-mail-like substring
    of the fragment's text. *)
Theorem extract_candidates (node : Node) :
  (has_email (innerText node) -> exists n e, extract node = Some (n, e)) /\
  (forall n e,
      extract node = Some (n, e) ->
      n <> [] /\ toLowerCase e = e /\
      exists pre m post,
        innerText node = pre ++ m ++ post /\ email_like m /\
        e = toLowerCase m).
Proof.
  split.
  - intros H. apply has_email_exec in H.
    unfold extract, match_.
    destruct (exec EMAIL_REGEX (innerText node)) as [[i k]|]; [|congruence].
    eexists. eexists. reflexivity.
  - intros n e H.
    apply extract_inv in H as (Hn & pre & m & post & Ht & Hm & ->).
    split; [exact Hn|]. split; [apply toLowerCase_idem|].
    now exists pre, m, post.
Qed.

Lemma extract_candidates_witness :
  has_email (innerText (fragment (str "- Rahul.V@Example.COM -") [])) /\
  exists n e,
    extract (fragment (str "- Rahul.V@Example.COM -") []) = Some (n, e) /\
    n <> [] /\ toLowerCase e = e.
Proof.
  assert (H : has_email (innerText (fragment (str "- Rahul.V@Example.COM -") []))).
  { exists (str "- "), (str "Rahul.V@Example.COM"), (str " -").
    split; [reflexivity|].
    exists (str "Rahul.V"), (str "Example"), (str "COM").
    repeat split; try discriminate. simpl. lia. }
  split; [exact H|].
  destruct (extract_candidates (fragment (str "- Rahul.V@Example.COM -") []))
    as [H1 H2].
  destruct (H1 H) as (n & e & He).
  exists n, e. split; [exact He|].
  destruct (H2 n e He) as (Hn & Hl & _). now split.
Defined.

Lemma exec_whole e :
  email_like e ->
  match_ EMAIL_REGEX e = Some e /\ replace e [] e = [].
Proof.
  intros He.
  split.
  - unfold match_.
    pose proof (exec_app EMAIL_REGEX e (email_like_match He) (pre := [])) as H.
    cbn [app length] in H. rewrite H.
    + simpl. now rewrite firstn_all.
    + intros p1 p2 E Hp2. exfalso. destruct p1, p2; try discriminate.
      congruence.
  - assert (Hs : startsWith e e = true).
    { rewrite <- (app_nil_r e) at 2. apply startsWith_app. }
    pose proof (@replace_app e [] e Hs []) as H.
    cbn [app] in H. rewrite H.
    + rewrite <- (app_nil_r e) at 2. apply skipn_length_app.
    + intros p1 p2 E Hp2. exfalso. destruct p1, p2; try discriminate.
      congruence.
Qed.

(** X4.  A fragment that is an e-mail and nothing else, with no parent,
    is recorded under the name of its local part in lower case. *)
Theorem email_only_fragment (l d t : jsstring) :
  l <> [] -> forallb (mem local_class) l = true ->
  d <> [] -> forallb (mem domain_class) d = true ->
  2 <= length t -> forallb (mem alpha_class) t = true ->
  extract (fragment (l ++ chr "@" :: d ++ chr "." :: t) [])
  = Some (toLowerCase l, toLowerCase (l ++ chr "@" :: d ++ chr "." :: t)).
Proof.
  intros Hl0 Hl Hd0 Hd Ht2 Ht.
  assert (He : email_like (l ++ chr "@" :: d ++ chr "." :: t)).
  { exists l, d, t. repeat split; auto. }
  destruct (exec_whole He) as [Hm Hr].
  unfold extract. cbn [fragment innerText parentElement].
  rewrite Hm, Hr. cbn [trim dropWhile dropWhileEnd rev length Nat.ltb Nat.leb widen].
  change (trim (replace_all SEPARATOR_REGEX [] [])) with (@nil char).
  now rewrite split_head_local.
Qed.

Lemma email_only_fragment_witness :
  extract (fragment (str "Rahul.V@Example.COM") [])
  = Some (str "rahul.v", str "rahul.v@example.com").
Proof.
  apply (@email_only_fragment (str "Rahul.V") (str "Example") (str "COM"));
    try discriminate; try reflexivity.
  simpl. lia.
Defined.

(** ** The walk over the ancestors *)

Lemma widen_firstn :
  forall fuel text ancestors e m best,
    widen fuel (parentElement (fragment text ancestors)) e m best
    = widen fuel (parentElement (fragment text (firstn fuel ancestors)))
            e m best.
Proof.
  induction fuel as [|fuel IH]; intros text ancestors e m best.
  - now destruct ancestors.
  - destruct ancestors as [|t up]; [reflexivity|].
    cbn [firstn]. rewrite !parentElement_fragment. cbn [widen].
    rewrite !innerText_fragment.
    destruct (includes e t); [|apply IH].
    destruct (Nat.ltb (length best) _); [|apply IH].
    destruct (Nat.ltb 2 _); [reflexivity|apply IH].
Qed.

(** X5.  No ancestor beyond the third has any part in the result. *)
Theorem extract_three_ancestors (text : jsstring) (ancestors : list jsstring) :
  extract (fragment text ancestors)
  = extract (fragment text (firstn 3 ancestors)).
Proof.
  unfold extract. rewrite !innerText_fragment.
  destruct (match_ EMAIL_REGEX text) as [m|]; [|reflexivity].
  now rewrite (widen_firstn 3 text ancestors).
Qed.

Lemma processNode_guard node now st :
  processNode node now st = parseCandidateNode node now st.
Proof.
  unfold processNode, parseCandidateNode, extract, test, match_.
  destruct (innerText node) as [|c text] eqn:Ht; [reflexivity|].
  now destruct (exec EMAIL_REGEX (c :: text)) as [[i n]|].
Qed.

(** X6.  The fast check of [processNode] never turns away a fragment
    that [parseCandidateNode] would record: the two give the same ledger,
    also for an empty text. *)
Theorem processNode_is_parse (node : Node) (now : JSDate) (st : State) :
  processNode node now st = parseCandidateNode node now st.
Proof. apply processNode_guard. Qed.

(** ** An e-mail between other text *)

Lemma match_at_rejected c s :
  rejects EMAIL_REGEX c = true -> match_at EMAIL_REGEX (c :: s) = None.
Proof.
  intros Hc. change (c :: s) with ([] ++ c :: s).
  now rewrite match_at_stop.
Qed.

(** No match starts in a text without e-mails that is followed by some
    code units which the pattern rejects. *)
Lemma no_match_before_sep s sep e :
  ~ has_email s -> sep <> [] ->
  Forall (fun c => rejects EMAIL_REGEX c = true) sep ->
  forall p1 p2, s ++ sep = p1 ++ p2 -> p2 <> [] ->
                match_at EMAIL_REGEX (p2 ++ e) = None.
Proof.
  intros Hs Hsep Hrej p1 p2 E Hp2.
  apply app_eq_app in E as [l [[-> ->]|[-> ->]]].
  - destruct sep as [|c sep']; [congruence|].
    inversion Hrej as [|? ? Hc _]; subst.
    rewrite <- app_assoc. cbn [app].
    rewrite match_at_stop by exact Hc.
    destruct (match_at EMAIL_REGEX l) as [n|] eqn:Hm; auto.
    exfalso. apply Hs.
    apply match_email_like in Hm as (e' & rest & -> & _ & He).
    now exists p1, e', rest.
  - destruct p2 as [|c p2]; [congruence|].
    apply Forall_app in Hrej as [_ Hrej].
    inversion Hrej as [|? ? Hc _]; subst.
    now apply match_at_rejected.
Qed.

Lemma match_in_context s e tail :
  email_like e ->
  (forall p1 p2, s = p1 ++ p2 -> p2 <> [] ->
                 match_at EMAIL_REGEX (p2 ++ e) = None) ->
  (forall c t, tail = c :: t -> rejects EMAIL_REGEX c = true) ->
  match_ EMAIL_REGEX (s ++ e ++ tail) = Some e /\
  replace e [] (s ++ e ++ tail) = s ++ tail.
Proof.
  intros He Hs Htail.
  assert (Hstop : forall x, match_at EMAIL_REGEX (x ++ tail)
                            = match_at EMAIL_REGEX x).
  { intros x. destruct tail as [|c t]; [now rewrite app_nil_r|].
    apply match_at_stop. now apply (Htail c t). }
  assert (Hnone : forall p1 p2, s = p1 ++ p2 -> p2 <> [] ->
                    match_at EMAIL_REGEX (p2 ++ e ++ tail) = None).
  { intros p1 p2 E Hp2. rewrite app_assoc, Hstop. eauto. }
  split.
  - unfold match_. rewrite (@exec_app EMAIL_REGEX (e ++ tail) (length e)).
    + now rewrite skipn_length_app, firstn_length_app.
    + rewrite Hstop. now apply email_like_match.
    + exact Hnone.
  - rewrite replace_app.
    + now rewrite skipn_length_app.
    + apply startsWith_app.
    + intros p1 p2 E Hp2.
      destruct (startsWith e (p2 ++ e ++ tail)) eqn:Hsw; auto. exfalso.
      apply startsWith_inv in Hsw as [rest Hr].
      apply (match_at_extend EMAIL_REGEX e rest).
      * rewrite (email_like_match He). discriminate.
      * rewrite <- Hr. eauto.
Qed.

Lemma includes_app pat pre post : includes pat (pre ++ pat ++ post) = true.
Proof.
  induction pre as [|c pre IH].
  - cbn [app]. destruct (pat ++ post) eqn:E; cbn [includes];
      rewrite <- E, startsWith_app; reflexivity.
  - cbn [app includes]. rewrite IH. apply orb_true_r.
Qed.

Lemma last_app_nonempty (a b : jsstring) (d : char) :
  b <> [] -> last (a ++ b) d = last b d.
Proof.
  intros Hb. induction a as [|c a IH]; [reflexivity|].
  cbn [app]. destruct (a ++ b) eqn:E.
  - apply app_eq_nil in E as [_ ->]. congruence.
  - rewrite <- IH. reflexivity.
Qed.

Lemma email_like_last e d :
  email_like e -> e <> [] /\ mem alpha_class (last e d) = true.
Proof.
  intros (l & dm & t & -> & _ & _ & _ & _ & Ht2 & Ht).
  split; [now destruct l|].
  assert (Hne : t <> []) by (destruct t; [simpl in Ht2; lia|discriminate]).
  change (l ++ chr "@" :: dm ++ chr "." :: t)
    with (l ++ (chr "@" :: dm) ++ chr "." :: t).
  rewrite app_assoc.
  change (chr "." :: t) with ([chr "."] ++ t). rewrite app_assoc.
  rewrite last_app_nonempty by exact Hne.
  rewrite forallb_forall in Ht. apply Ht.
  destruct t as [|c t]; [congruence|].
  clear. revert c. induction t as [|a t IH]; intros c; [now left|].
  right. apply (IH a).
Qed.

Lemma alpha_no_artifact c : mem alpha_class c = true -> artifact c = false.
Proof.
  intros H. unfold artifact.
  assert (Hb : (65 <= c <= 122)%N).
  { revert H. unfold mem, alpha_class. cbn [existsb item_mem].
    unfold in_range, chr. cbn [N_of_ascii N_of_digits].
    rewrite !orb_true_iff, !andb_true_iff, !N.leb_le. simpl. lia. }
  apply orb_false_iff. split.
  - unfold is_space, in_range.
    repeat (apply orb_false_iff; split);
      try (apply andb_false_iff; rewrite !N.leb_gt; lia);
      apply N.eqb_neq; lia.
  - unfold mem, separator_class. cbn [existsb item_mem]. unfold chr.
    cbn [N_of_ascii N_of_digits].
    repeat (apply orb_false_iff; split); auto; apply N.eqb_neq; simpl; lia.
Qed.

(** A clean start and an e-mail at the end make a text without artifacts
    at its ends. *)
Lemma no_artifacts_upto_email s mid e :
  no_artifacts s = true -> email_like e ->
  no_artifacts (s ++ mid ++ e) = true.
Proof.
  intros Hs He. destruct s as [|c s]; [discriminate|].
  apply andb_prop in Hs as [Hc _].
  cbn [app no_artifacts]. rewrite Hc. cbn [andb].
  change (c :: s ++ mid ++ e) with ((c :: s) ++ mid ++ e).
  destruct (email_like_last c He) as [Hne Hl].
  rewrite app_assoc, last_app_nonempty by exact Hne.
  now rewrite (alpha_no_artifact _ Hl).
Qed.

Lemma rejects_space : rejects EMAIL_REGEX (chr " ") = true.
Proof. reflexivity. Qed.

Lemma no_split_of_nil (A : Type) (P : list A -> Prop) :
  forall p1 p2 : list A, [] = p1 ++ p2 -> p2 <> [] -> P p2.
Proof.
  intros p1 p2 E Hp2. exfalso. destruct p1, p2; try discriminate. congruence.
Qed.

(** X7.  A name of two or more code units in the fragment itself is the
    name recorded, whether it stands before the e-mail or after it, and
    whatever the ancestors are: they are not looked at. *)
Theorem name_beside_email
        (N E : jsstring) (ancestors : list jsstring) :
  email_like E -> 2 <= length N -> no_artifacts N = true ->
  (~ has_email N ->
   extract (fragment (N ++ str " " ++ E) ancestors)
   = Some (N, toLowerCase E)) /\
  extract (fragment (E ++ str " " ++ N) ancestors) = Some (N, toLowerCase E).
Proof.
  intros HE Hlen Hclean.
  split.
  - intros Hno.
    destruct (match_after_name HE Hno) as [Hm Hr].
    unfold extract. rewrite innerText_fragment, Hm, Hr.
    rewrite (trim_clean_space _ Hclean).
    destruct (Nat.ltb_spec (length N) 2) as [Hlt|_]; [lia|].
    rewrite replace_separators.
    rewrite (strip_separators_clean _ Hclean), (trim_clean _ Hclean).
    destruct N; [discriminate|reflexivity].
  - destruct (@match_in_context [] E (str " " ++ N) HE) as [Hm Hr].
    + apply no_split_of_nil.
    + intros c t [= <- _]. reflexivity.
    + cbn [app] in Hm, Hr. unfold extract.
      rewrite innerText_fragment. cbn [app]. rewrite Hm, Hr.
      assert (Ht : trim (chr " " :: N) = N).
      { pose proof (trim_clean _ Hclean) as Hc. unfold trim in *.
        cbn [dropWhile]. change (is_space (chr " ")) with true. exact Hc. }
      change (str " ") with [chr " "]. cbn [app]. rewrite Ht.
      destruct (Nat.ltb_spec (length N) 2) as [Hlt|_]; [lia|].
      rewrite replace_separators.
      rewrite (strip_separators_clean _ Hclean), (trim_clean _ Hclean).
      destruct N; [discriminate|reflexivity].
Qed.

Lemma name_beside_email_witness :
  extract (fragment (str "Rahul Verma Rahul.V@Example.COM")
                    [str "Asha: asha@example.com"])
  = Some (str "Rahul Verma", str "rahul.v@example.com") /\
  extract (fragment (str "Rahul.V@Example.COM Rahul Verma")
                    [str "Asha: asha@example.com"])
  = Some (str "Rahul Verma", str "rahul.v@example.com").
Proof.
  assert (HE : email_like (str "Rahul.V@Example.COM")).
  { exists (str "Rahul.V"), (str "Example"), (str "COM").
    repeat split; try discriminate. simpl. lia. }
  assert (Hno : ~ has_email (str "Rahul Verma")).
  { apply exec_none_no_email. reflexivity. }
  assert (Hlen : 2 <= length (str "Rahul Verma")) by (simpl; lia).
  destruct (@name_beside_email (str "Rahul Verma") (str "Rahul.V@Example.COM")
              [str "Asha: asha@example.com"] HE Hlen eq_refl) as [H1 H2].
  split; [exact (H1 Hno)|exact H2].
Defined.

Lemma trim_colon_space s :
  no_artifacts s = true -> trim (s ++ str ": ") = s ++ str ":".
Proof.
  intros H. apply no_artifacts_inv in H as (c & s' & -> & H1 & _).
  unfold trim. cbn [app]. rewrite dropWhile_keep by exact H1.
  replace (c :: s' ++ str ": ") with (((c :: s') ++ [chr ":"]) ++ [chr " "])
    by (rewrite <- app_assoc; reflexivity).
  rewrite dropWhileEnd_snoc. change (is_space (chr " ")) with true. cbv iota.
  rewrite dropWhileEnd_snoc. reflexivity.
Qed.

Lemma strip_colon s :
  no_artifacts s = true -> strip_separators (s ++ str ":") = s.
Proof.
  intros H. pose proof (strip_separators_clean _ H) as Hs.
  apply no_artifacts_inv in H as (c & s' & -> & _ & H1 & _).
  unfold strip_separators in *. cbn [app].
  rewrite dropWhile_keep in Hs |- * by exact H1.
  change (c :: s' ++ str ":") with ((c :: s') ++ [chr ":"]).
  rewrite dropWhileEnd_snoc. exact Hs.
Qed.

(** X8.  The widening walk on a match in lower case: the fragment is the
    e-mail alone and its parent reads name, colon, space, e-mail; the name
    recorded is the parent's name without the colon, and with a name of two
    or more code units no further ancestor has a part in it. *)
Theorem name_from_parent
        (N E : jsstring) (further : list jsstring) :
  email_like E -> toLowerCase E = E ->
  2 <= length N -> no_artifacts N = true -> ~ has_email N ->
  extract (fragment E ((N ++ str ": " ++ E) :: further)) = Some (N, E).
Proof.
  intros HE Hlow Hlen Hclean Hno.
  destruct (exec_whole HE) as [Hm Hr].
  destruct (@match_in_context (N ++ str ": ") E [] HE) as [_ Hrp].
  { apply no_match_before_sep; auto; [discriminate|].
    repeat constructor. }
  { discriminate. }
  rewrite !app_nil_r, <- app_assoc in Hrp.
  unfold extract. rewrite innerText_fragment, Hm, Hr, Hlow.
  change (trim []) with (@nil char). cbn [length Nat.ltb Nat.leb].
  rewrite parentElement_fragment. cbn [widen].
  rewrite innerText_fragment.
  pose proof (includes_app E (N ++ str ": ") []) as Hinc.
  rewrite app_nil_r, <- app_assoc in Hinc.
  rewrite Hinc, Hrp, (trim_colon_space _ Hclean).
  assert (Hl : length (N ++ str ":") = S (length N))
    by (rewrite length_app; simpl; lia).
  rewrite Hl. cbn [length].
  destruct (Nat.ltb_spec 0 (S (length N))) as [_|]; [|lia].
  destruct (Nat.ltb_spec 2 (S (length N))) as [_|]; [|lia].
  rewrite replace_separators, (strip_colon _ Hclean), (trim_clean _ Hclean).
  destruct N; [discriminate|reflexivity].
Qed.

Lemma name_from_parent_witness :
  extract (fragment (str "rahul@example.com")
                    [str "Rahul Verma: rahul@example.com";
                     str "Asha: asha@example.com"])
  = Some (str "Rahul Verma", str "rahul@example.com").
Proof.
  assert (HE : email_like (str "rahul@example.com")).
  { exists (str "rahul"), (str "example"), (str "com").
    repeat split; try discriminate. simpl. lia. }
  assert (Hno : ~ has_email (str "Rahul Verma")).
  { apply exec_none_no_email. reflexivity. }
  assert (Hlen : 2 <= length (str "Rahul Verma")) by (simpl; lia).
  exact (@name_from_parent (str "Rahul Verma") (str "rahul@example.com")
           [str "Asha: asha@example.com"] HE eq_refl Hlen eq_refl Hno).
Defined.

(** X9.  Of two e-mails in one fragment the first is the one recorded,
    and the second stays in the name: for name, space, first e-mail, space,
    second e-mail the name recorded is the name, two spaces and the second
    e-mail as written. *)
Theorem first_email_wins (N E1 E2 : jsstring) (ancestors : list jsstring) :
  email_like E1 -> email_like E2 ->
  no_artifacts N = true -> ~ has_email N ->
  extract (fragment (N ++ str " " ++ E1 ++ str " " ++ E2) ancestors)
  = Some (N ++ str "  " ++ E2, toLowerCase E1).
Proof.
  intros H1 H2 Hclean Hno.
  destruct (@match_in_context (N ++ str " ") E1 (str " " ++ E2) H1)
    as [Hm Hr].
  { now apply no_match_before. }
  { intros c t [= <- _]. reflexivity. }
  rewrite <- !app_assoc in Hm. rewrite <- !app_assoc in Hr.
  change (str " " ++ str " " ++ E2) with (str "  " ++ E2) in Hr.
  unfold extract. rewrite innerText_fragment, Hm, Hr.
  pose proof (no_artifacts_upto_email N (str "  ") Hclean H2) as Hall.
  rewrite (trim_clean _ Hall).
  destruct (Nat.ltb_spec (length (N ++ str "  " ++ E2)) 2) as [Hlt|_].
  { rewrite !length_app in Hlt. simpl in Hlt. lia. }
  rewrite replace_separators.
  rewrite (strip_separators_clean _ Hall), (trim_clean _ Hall).
  destruct (N ++ str "  " ++ E2) eqn:E; [|reflexivity].
  apply app_eq_nil in E as [_ E]. discriminate.
Qed.

Lemma first_email_wins_witness :
  extract (fragment (str "Rahul Verma rahul@example.com Asha@Example.com") [])
  = Some (str "Rahul Verma  Asha@Example.com", str "rahul@example.com").
Proof.
  assert (H1 : email_like (str "rahul@example.com")).
  { exists (str "rahul"), (str "example"), (str "com").
    repeat split; try discriminate. simpl. lia. }
  assert (H2 : email_like (str "Asha@Example.com")).
  { exists (str "Asha"), (str "Example"), (str "com").
    repeat split; try discriminate. simpl. lia. }
  assert (Hno : ~ has_email (str "Rahul Verma")).
  { apply exec_none_no_email. reflexivity. }
  exact (@first_email_wins (str "Rahul Verma") (str "rahul@example.com")
           (str "Asha@Example.com") [] H1 H2 eq_refl Hno).
Defined.

(** * Further properties of the ledger *)

(** X10.  The map keeps the e-mails in the order of their first record: an
    upsert of an e-mail that is already there changes neither the order of
    the keys nor the count, an upsert of a new one puts it last and raises
    the count by one. *)
Theorem upsert_keeps_order (n e : jsstring) (now : JSDate) (st : State) :
  let st' := recordAttendance n e now st in
  (In e (map fst (attendanceMap st)) ->
   map fst (attendanceMap st') = map fst (attendanceMap st) /\
   count (getStatus st') = count (getStatus st)) /\
  (~ In e (map fst (attendanceMap st)) ->
   map fst (attendanceMap st') = map fst (attendanceMap st) ++ [e] /\
   count (getStatus st') = S (count (getStatus st))).
Proof.
  cbn zeta. cbn [recordAttendance attendanceMap getStatus count].
  assert (Hlen : forall m : JSMap, length m = length (map fst m))
    by (intros m; now rewrite length_map).
  rewrite !(Hlen (map_set _ _ _)), !(Hlen (attendanceMap st)).
  rewrite map_set_keys.
  destruct (in_dec (list_eq_dec N.eq_dec) e (map fst (attendanceMap st)))
    as [Hin|Hout]; split; intros H; try contradiction; split; auto.
  rewrite length_app. simpl. lia.
Qed.

Lemma upsert_keeps_order_witness :
  map fst (attendanceMap
             (recordAttendance (str "Johnny") (str "john@example.com") evening
                (recordAttendance (str "Asha") (str "asha@example.com") evening
                   (run sample_session initial_state))))
  = [str "john@example.com"; str "asha@example.com"].
Proof.
  pose (st1 := recordAttendance (str "Asha") (str "asha@example.com") evening
                 (run sample_session initial_state)).
  destruct (upsert_keeps_order (str "Johnny") (str "john@example.com")
              evening st1) as [H _].
  assert (Hin : In (str "john@example.com") (map fst (attendanceMap st1)))
    by (left; reflexivity).
  destruct (H Hin) as [Hk _].
  exact Hk.
Defined.

(** X11.  An upsert touches one record only: the record of every other
    e-mail is as it was, and so are the running flag, the observer, the
    start timestamp and the meeting name. *)
Theorem upsert_frame (n e : jsstring) (now : JSDate) (st : State) :
  let st' := recordAttendance n e now st in
  (forall k, k <> e ->
             map_get k (attendanceMap st') = map_get k (attendanceMap st)) /\
  isRunning st' = isRunning st /\ observer st' = observer st /\
  startTimestamp st' = startTimestamp st /\ meetingName st' = meetingName st.
Proof.
  cbn zeta. split; [|repeat split].
  intros k Hk. cbn [recordAttendance attendanceMap].
  apply map_get_set_other. congruence.
Qed.

Lemma upsert_frame_witness :
  map_get (str "john@example.com")
          (attendanceMap
             (recordAttendance (str "Asha") (str "asha@example.com") evening
                               (run sample_session initial_state)))
  = map_get (str "john@example.com")
            (attendanceMap (run sample_session initial_state)).
Proof.
  destruct (upsert_frame (str "Asha") (str "asha@example.com") evening
                         (run sample_session initial_state)) as [H _].
  apply H. discriminate.
Defined.

(** X12.  The date stored with a record at a wall-clock instant is day,
    month and year as DD/MM/YYYY, with two digits for day and month (the
    month counted from one), and the time stored is the host's rendering
    of the instant. *)
Theorem upsert_date_format (n e : jsstring) (now : JSDate) (st : State) :
  wall_clock now = true ->
  exists r,
    map_get e (attendanceMap (recordAttendance n e now st)) = Some r /\
    date r = two_digits (getDate now) ++ str "/"
               ++ two_digits (getMonth now + 1) ++ str "/"
               ++ four_digits (getFullYear now) /\
    time r = toLocaleTimeString now /\ timestamp r = getTime now.
Proof.
  intros H. apply wall_clock_inv in H as (Hd & Hm & Hy & _).
  eexists. split.
  - cbn [recordAttendance attendanceMap]. apply map_get_set_same.
  - cbn [date time timestamp]. repeat split.
    rewrite (@pad2_two_digits (getDate now)) by lia.
    rewrite (@pad2_two_digits (getMonth now + 1)) by lia.
    now rewrite String_four_digits by lia.
Qed.

Lemma upsert_date_format_witness :
  exists r,
    map_get (str "asha@example.com")
            (attendanceMap
               (recordAttendance (str "Asha") (str "asha@example.com")
                                 morning initial_state)) = Some r /\
    date r = str "07/01/2026".
Proof.
  destruct (@upsert_date_format (str "Asha") (str "asha@example.com")
              morning initial_state eq_refl) as (r & H1 & H2 & _).
  exists r. split; [exact H1|exact H2].
Defined.

Lemma map_set_length_le k v m : length (map_set k v m) <= S (length m).
Proof.
  induction m as [|[k' v'] m IH]; simpl; auto.
  destruct (key_eqb k' k); simpl; lia.
Qed.

Lemma map_get_set_keeps k v m k0 :
  map_get k0 m <> None -> map_get k0 (map_set k v m) <> None.
Proof.
  intros H. destruct (list_eq_dec N.eq_dec k k0) as [->|Hne].
  - rewrite map_get_set_same. discriminate.
  - now rewrite map_get_set_other.
Qed.

(** What one fragment can do to the ledger. *)
Lemma processNode_effect node now st :
  let st' := processNode node now st in
  isRunning st' = isRunning st /\ observer st' = observer st /\
  startTimestamp st' = startTimestamp st /\ meetingName st' = meetingName st /\
  length (attendanceMap st) <= length (attendanceMap st')
  <= S (length (attendanceMap st)) /\
  forall k, map_get k (attendanceMap st) <> None ->
            map_get k (attendanceMap st') <> None.
Proof.
  cbn zeta. rewrite processNode_guard. unfold parseCandidateNode.
  destruct (extract node) as [[n e]|].
  - cbn [recordAttendance isRunning observer startTimestamp meetingName
           attendanceMap].
    repeat split; auto using map_set_length, map_set_length_le,
                  map_get_set_keeps.
  - repeat split; auto.
Qed.

Lemma handleMutations_effect (added : list (Node * JSDate)) (st : State) :
  let st' := handleMutations added st in
  (isRunning st = false -> st' = st) /\
  isRunning st' = isRunning st /\ observer st' = observer st /\
  startTimestamp st' = startTimestamp st /\ meetingName st' = meetingName st /\
  count (getStatus st) <= count (getStatus st')
  <= count (getStatus st) + length added /\
  forall k, map_get k (attendanceMap st) <> None ->
            map_get k (attendanceMap st') <> None.
Proof.
  cbn zeta. unfold handleMutations, getStatus. cbn [count].
  destruct (isRunning st) eqn:Hrun.
  - split; [discriminate|]. rewrite <- Hrun. clear Hrun.
    revert st. induction added as [|[node now] added IH]; intros st.
    + cbn. repeat split; auto; lia.
    + cbn [fold_left fst snd length].
      destruct (processNode_effect node now st)
        as (H1 & H2 & H3 & H4 & H5 & H6).
      destruct (IH (processNode node now st))
        as (I1 & I2 & I3 & I4 & I5 & I6).
      repeat split; try congruence; try lia. auto.
  - repeat split; auto; lia.
Qed.

(** X13.  A batch of mutations that arrives while the ledger is not
    running changes nothing.  While it is running, a batch changes the
    records only: the running flag, the observer, the start timestamp and
    the meeting name stay, no record is lost, and the count grows by at
    most the number of added nodes. *)
Theorem mutations_effect (added : list (Node * JSDate)) (st : State) :
  let st' := handleMutations added st in
  (isRunning st = false -> st' = st) /\
  isRunning st' = isRunning st /\ observer st' = observer st /\
  startTimestamp st' = startTimestamp st /\ meetingName st' = meetingName st /\
  count (getStatus st) <= count (getStatus st')
  <= count (getStatus st) + length added /\
  forall k, map_get k (attendanceMap st) <> None ->
            map_get k (attendanceMap st') <> None.
Proof. apply handleMutations_effect. Qed.

Lemma mutations_effect_witness :
  handleMutations [(fragment (str "Asha asha@example.com") [], evening)]
                  initial_state = initial_state.
Proof.
  destruct (mutations_effect
              [(fragment (str "Asha asha@example.com") [], evening)]
              initial_state) as [H _].
  exact (H eq_refl).
Defined.

(** ** Sessions *)

(** X14.  Stopping a running session and resuming it without a new name
    gives back the state it was in before the stop: records, meeting name
    and start timestamp are kept. *)
Theorem stop_resume (st : State) (now : JSDate) (name : option jsstring) :
  isRunning st = true -> observer st = Some true ->
  truthy_time (startTimestamp st) = true ->
  truthy_text name = false ->
  fst (startAttendance name now (fst (stopAttendance st))) = st.
Proof.
  intros Hrun Hobs Hts Hname.
  unfold startAttendance, stopAttendance.
  cbn [fst isRunning attendanceMap observer startTimestamp meetingName].
  rewrite Hts.
  assert (Hn : match name with Some (c :: n) => c :: n | _ => meetingName st end
               = meetingName st).
  { destruct name as [[|c n]|]; auto. discriminate. }
  rewrite Hn. destruct st. cbn in *. congruence.
Qed.

Lemma stop_resume_witness :
  fst (startAttendance None evening
         (fst (stopAttendance (run sample_session initial_state))))
  = run sample_session initial_state.
Proof.
  exact (@stop_resume (run sample_session initial_state) evening None
           eq_refl eq_refl eq_refl eq_refl).
Defined.

Lemma same_session_refl s : same_session s s.
Proof. repeat split. Qed.

Lemma same_session_record n e now s1 s2 :
  same_session s1 s2 ->
  same_session (recordAttendance n e now s1) (recordAttendance n e now s2).
Proof.
  intros (Hm & Hr & Ht & Hn & Ho). unfold same_session.
  cbn [recordAttendance attendanceMap isRunning startTimestamp meetingName
         observer].
  rewrite Hm. repeat split; auto.
Qed.

Lemma same_session_mutations added s1 s2 :
  same_session s1 s2 ->
  same_session (handleMutations added s1) (handleMutations added s2).
Proof.
  intros H. unfold handleMutations.
  rewrite <- (proj1 (proj2 H)).
  destruct (isRunning s1); [|exact H].
  revert s1 s2 H.
  induction added as [|[node now] added IH]; intros s1 s2 H; [exact H|].
  cbn [fold_left fst snd]. apply IH.
  rewrite !processNode_guard. unfold parseCandidateNode.
  destruct (extract node) as [[n e]|]; auto using same_session_record.
Qed.

Lemma same_session_message request now s1 s2 :
  same_session s1 s2 ->
  same_session (fst (onMessage request now s1)) (fst (onMessage request now s2))
  /\ snd (onMessage request now s1) = snd (onMessage request now s2).
Proof.
  intros (Hm & Hr & Ht & Hn & Ho).
  assert (Hs : getStatus s1 = getStatus s2)
    by (unfold getStatus; now rewrite Hm, Hr, Ht, Hn).
  destruct request as [a nm]. unfold onMessage. cbn [action request_meetingName].
  destruct a; cbn [fst snd].
  - unfold startAttendance. rewrite <- Hr.
    destruct (isRunning s1) eqn:Hrun; cbn [fst snd].
    + split; [repeat split; auto; congruence|now rewrite Hs].
    + unfold same_session, getStatus.
      cbn [attendanceMap isRunning startTimestamp meetingName observer
             status_isRunning count status_meetingName sessionStarted].
      rewrite Hm, Ht, Hn. repeat split.
  - unfold stopAttendance, same_session, getStatus.
    cbn [fst snd attendanceMap isRunning startTimestamp meetingName observer
           status_isRunning count status_meetingName sessionStarted].
    rewrite Hm, Ht, Hn. repeat split; discriminate.
  - unfold restartAttendance, stopAttendance, same_session, getStatus.
    cbn [fst snd attendanceMap isRunning startTimestamp meetingName observer
           status_isRunning count status_meetingName sessionStarted].
    repeat split; discriminate.
  - split; [repeat split; auto|].
    unfold generateCSV. now rewrite Hm, Hn, Hs.
  - split; [repeat split; auto|now rewrite Hs].
  - split; [repeat split; auto|now rewrite Hs].
Qed.

Lemma same_session_run evs :
  forall s1 s2, same_session s1 s2 -> same_session (run evs s1) (run evs s2).
Proof.
  unfold run. induction evs as [|ev evs IH]; intros s1 s2 H; [exact H|].
  cbn [fold_left]. apply IH. destruct ev as [request now|added]; cbn [step].
  - now apply same_session_message.
  - now apply same_session_mutations.
Qed.

(** X15.  After a restart nothing of the old session is left: whatever
    events follow, every response is the one that a script started from
    the initial state gives after the same events. *)
Theorem restart_is_fresh
        (st : State) (evs : list Event) (request : Request) (now : JSDate) :
  snd (onMessage request now (run evs (fst (restartAttendance st))))
  = snd (onMessage request now (run evs initial_state)).
Proof.
  apply same_session_message, same_session_run.
  unfold restartAttendance, stopAttendance, same_session.
  cbn [fst attendanceMap isRunning startTimestamp meetingName observer
         initial_state].
  repeat split. discriminate.
Qed.

(** X16.  In every state that the script reaches: the ledger is running
    exactly when its observer is observing; a running ledger has a start
    timestamp; and a ledger with records has one too. *)
Theorem session_invariants (evs : list Event) :
  let st := run evs initial_state in
  (isRunning st = true <-> observer st = Some true) /\
  (isRunning st = true -> startTimestamp st <> None) /\
  (attendanceMap st <> [] -> startTimestamp st <> None).
Proof.
  cbn zeta. unfold run.
  assert (H0 : (isRunning initial_state = true
                <-> observer initial_state = Some true) /\
               (isRunning initial_state = true ->
                startTimestamp initial_state <> None) /\
               (attendanceMap initial_state <> [] ->
                startTimestamp initial_state <> None)).
  { cbn. repeat split; congruence. }
  revert H0. generalize initial_state.
  induction evs as [|ev evs IH]; intros st H; [exact H|].
  cbn [fold_left]. apply IH. clear IH.
  destruct H as (Hobs & Hrun & Hrec).
  destruct ev as [[a nm] now|added]; cbn [step].
  - unfold onMessage. cbn [action request_meetingName].
    destruct a; cbn [fst]; auto.
    + unfold startAttendance.
      destruct (isRunning st) eqn:Er; cbn [fst]; [now rewrite Er|].
      cbn [isRunning observer startTimestamp attendanceMap].
      repeat split; auto;
        destruct (startTimestamp st); cbn; try discriminate;
        destruct (negb _); discriminate.
    + unfold stopAttendance. cbn. repeat split; try discriminate; auto.
      destruct (observer st); discriminate.
    + unfold restartAttendance, stopAttendance. cbn.
      repeat split; try discriminate; try congruence.
      destruct (observer st); discriminate.
  - destruct (handleMutations_effect added st)
      as (H1 & H2 & H3 & H4 & _ & _ & _).
    rewrite H2, H3, H4. repeat split; try apply Hobs; auto.
    intros Hne. destruct (isRunning st) eqn:Er; auto.
    apply Hrec. rewrite <- (H1 eq_refl). exact Hne.
Qed.

Lemma session_invariants_witness :
  isRunning (run sample_session initial_state) = true /\
  observer (run sample_session initial_state) = Some true /\
  startTimestamp (run sample_session initial_state) <> None.
Proof.
  destruct (session_invariants sample_session) as (H1 & H2 & _).
  assert (Hr : isRunning (run sample_session initial_state) = true)
    by reflexivity.
  split; [exact Hr|]. split; [exact (proj1 H1 Hr)|exact (H2 Hr)].
Defined.

(** X17.  Every record that the script ever holds has a name that is not
    empty, and an e-mail that is the lower case of a local part, an at sign,
    a domain, a dot and two or more letters; so it holds no white space and
    no double quote. *)
Theorem record_invariants (evs : list Event) (k : jsstring) (r : Entry) :
  In (k, r) (attendanceMap (run evs initial_state)) ->
  name r <> [] /\
  (exists e, email_like e /\ email r = toLowerCase e) /\
  Forall (fun c => is_space c = false /\ c <> dquote) (email r).
Proof.
  intros H.
  destruct (proj2 (ledger_ok_reachable evs) _ _ H) as (Hk & Hn & e & He & ->).
  split; [exact Hn|]. split; [now exists e|]. rewrite Hk.
  pose proof (email_like_units He) as Hu.
  unfold toLowerCase. apply Forall_map.
  eapply Forall_impl; [|exact Hu]. intros c Hc.
  assert (Hb : (37 <= c <= 122)%N).
  { destruct Hc as [Hc| ->]; [now apply local_bounds|].
    unfold chr. simpl. lia. }
  assert (Hl : (37 <= lower_char c <= 122)%N).
  { unfold lower_char. destruct (is_upper c) eqn:Eu; [|exact Hb].
    apply is_upper_spec in Eu. lia. }
  split; [|unfold dquote; lia].
  unfold is_space, in_range.
  repeat (apply orb_false_iff; split);
    try (apply andb_false_iff; rewrite !N.leb_gt; lia);
    apply N.eqb_neq; lia.
Qed.

Lemma record_invariants_witness :
  exists r,
    In (str "john@example.com", r)
       (attendanceMap (run sample_session initial_state)) /\
    name r <> [] /\
    Forall (fun c => is_space c = false /\ c <> dquote) (email r).
Proof.
  eexists. split; [left; reflexivity|].
  destruct (@record_invariants sample_session (str "john@example.com") _
              (or_introl eq_refl)) as (H1 & _ & H3).
  split; [exact H1|exact H3].
Defined.

(** X18.  Every response of the listener carries the status of the state
    the command left, and only [START], [STOP] and [RESTART] can change the
    state: an export, a status query and an unknown verb leave it as it
    was. *)
Theorem listener_responses (request : Request) (now : JSDate) (st : State) :
  response_status (snd (onMessage request now st))
  = getStatus (fst (onMessage request now st)) /\
  (action request <> START -> action request <> STOP ->
   action request <> RESTART -> fst (onMessage request now st) = st).
Proof.
  destruct request as [a nm]. unfold onMessage.
  cbn [action request_meetingName].
  destruct a; cbn [fst snd response_status]; split;
    try reflexivity; try congruence.
  - unfold startAttendance. now destruct (isRunning st).
Qed.

Lemma listener_responses_witness :
  fst (onMessage {| action := EXPORT; request_meetingName := None |} evening
                 (run sample_session initial_state))
  = run sample_session initial_state.
Proof.
  destruct (listener_responses
              {| action := EXPORT; request_meetingName := None |} evening
              (run sample_session initial_state)) as [_ H].
  apply H; discriminate.
Defined.

(** * Further properties of the export *)

Lemma double_quotes_inj a :
  forall b, double_quotes a = double_quotes b -> a = b.
Proof.
  induction a as [|x a IH]; intros [|y b]; cbn [double_quotes]; auto.
  - destruct (N.eqb y dquote); discriminate.
  - destruct (N.eqb x dquote); discriminate.
  - destruct (N.eqb_spec x dquote) as [->|Hx],
             (N.eqb_spec y dquote) as [->|Hy].
    + intros [= H]. f_equal. now apply IH.
    + intros [= H _]. congruence.
    + intros [= H _]. congruence.
    + intros [= -> H]. f_equal. now apply IH.
Qed.

(** X19.  The escaping of the name loses nothing: two different names
    never give the same escaped text. *)
Theorem escaped_names_differ (a b : jsstring) :
  a <> b ->
  replace_all QUOTE_REGEX [dquote; dquote] a
  <> replace_all QUOTE_REGEX [dquote; dquote] b.
Proof.
  intros Hab H. apply Hab.
  rewrite !replace_quotes in H. now apply double_quotes_inj.
Qed.

Lemma escaped_names_differ_witness :
  replace_all QUOTE_REGEX [dquote; dquote] (str "O" ++ [dquote] ++ str "Brien")
  <> replace_all QUOTE_REGEX [dquote; dquote]
                 (str "O" ++ [dquote; dquote] ++ str "Brien").
Proof.
  apply escaped_names_differ. discriminate.
Defined.

Lemma join_cons sep x xs :
  join sep (x :: xs) = x ++ flat_map (fun y => sep ++ y) xs.
Proof.
  revert x. induction xs as [|y xs IH]; intros x.
  - cbn. now rewrite app_nil_r.
  - change (join sep (x :: y :: xs)) with (x ++ sep ++ join sep (y :: xs)).
    rewrite IH. cbn [flat_map]. now rewrite <- app_assoc.
Qed.

Lemma csv_header_first providedName now st :
  csvContent (generateCSV providedName now st)
  = str "Name,Email,Time,Date"
    ++ flat_map (fun kv => newline :: csv_line (snd kv)) (attendanceMap st).
Proof.
  unfold generateCSV. cbn [csvContent]. rewrite join_cons.
  f_equal. rewrite map_map.
  induction (attendanceMap st) as [|[k r] m IH]; [reflexivity|].
  cbn [map flat_map snd]. rewrite IH, csv_row_line. reflexivity.
Qed.

(** X20.  The CSV text is the header line followed, for each record in
    the order of the map, by a line feed and the record's line; so it is
    never empty and never ends in a line feed of its own. *)
Theorem csv_layout (providedName : option jsstring) (now : JSDate) (st : State) :
  csvContent (generateCSV providedName now st)
  = str "Name,Email,Time,Date"
    ++ flat_map (fun kv => newline :: csv_line (snd kv)) (attendanceMap st) /\
  csvContent (generateCSV providedName now st) <> [].
Proof.
  pose proof (csv_header_first providedName now st) as H.
  split; [exact H|]. rewrite H. discriminate.
Qed.

(** ** The file name *)

Lemma digit_safe z :
  (0 <= z <= 9)%Z -> mem filename_class (digit z) = true.
Proof.
  intros Hz. unfold mem, filename_class. cbn [existsb item_mem].
  assert (H : in_range (chr "0") (chr "9") (digit z) = true).
  { change (chr "0") with 48%N. change (chr "9") with 57%N.
    unfold in_range, digit.
    apply andb_true_iff. rewrite !N.leb_le. lia. }
  rewrite H. now rewrite !orb_true_r.
Qed.

Lemma two_digits_safe z :
  (0 <= z < 100)%Z ->
  Forall (fun c => mem filename_class c = true) (two_digits z).
Proof.
  intros Hz. unfold two_digits.
  repeat constructor; apply digit_safe.
  - split; [apply Z.div_pos; lia|].
    assert (z / 10 < 10)%Z by (apply Z.div_lt_upper_bound; lia). lia.
  - pose proof (Z.mod_pos_bound z 10). lia.
Qed.

Lemma four_digits_safe z :
  (0 <= z < 10000)%Z ->
  Forall (fun c => mem filename_class c = true) (four_digits z).
Proof.
  intros Hz. unfold four_digits.
  repeat constructor; apply digit_safe.
  - split; [apply Z.div_pos; lia|].
    assert (z / 1000 < 10)%Z by (apply Z.div_lt_upper_bound; lia). lia.
  - pose proof (Z.mod_pos_bound (z / 100) 10). lia.
  - pose proof (Z.mod_pos_bound (z / 10) 10). lia.
  - pose proof (Z.mod_pos_bound z 10). lia.
Qed.

Lemma sanitized_safe n :
  Forall (fun c => mem filename_class c = true)
         (replace_all UNSAFE_REGEX (str "_") n).
Proof.
  rewrite replace_unsafe. induction n as [|c n IH]; [constructor|].
  cbn [flat_map]. destruct (mem filename_class c) eqn:Hc; cbn [negb].
  - constructor; auto.
  - constructor; auto.
Qed.

Lemma filename_unit_weaken l :
  Forall (fun c => mem filename_class c = true) l ->
  Forall (fun c => mem filename_class c || N.eqb c (chr ".") = true) l.
Proof.
  intros H. eapply Forall_impl; [|exact H].
  intros c Hc. cbv beta in *. now rewrite Hc.
Qed.

(** X21.  The file name of an export at a wall-clock instant is made of
    letters, digits, hyphens, underscores, spaces and dots only, whatever
    the session name holds; the session name is taken over with its length
    unchanged, and a name with no other code unit is taken over as it
    is. *)
Theorem filename_safe (providedName : option jsstring) (now : JSDate) (st : State) :
  wall_clock now = true ->
  Forall (fun c => mem filename_class c || N.eqb c (chr ".") = true)
         (filename (generateCSV providedName now st)) /\
  (forall n,
      length (replace_all UNSAFE_REGEX (str "_") n) = length n /\
      (Forall (fun c => mem filename_class c = true) n ->
       replace_all UNSAFE_REGEX (str "_") n = n)).
Proof.
  intros H. apply wall_clock_inv in H as (Hd & Hm & Hy & Hh & Hmin). split.
  - unfold generateCSV. cbn [filename]. cbv zeta.
    rewrite (@pad2_two_digits (getDate now)) by lia.
    rewrite (@pad2_two_digits (getMonth now + 1)) by lia.
    rewrite (@pad2_two_digits (getMinutes now)) by lia.
    rewrite String_four_digits by lia.
    destruct (@hour12_rem (getHours now)) as [-> Hh12]; [lia|].
    rewrite (@pad2_two_digits (hour12 (getHours now))) by lia.
    assert (Hconst : forall l : jsstring,
               forallb (fun c => mem filename_class c || N.eqb c (chr "."))
                       l = true ->
               Forall (fun c => mem filename_class c || N.eqb c (chr ".") = true)
                      l).
    { intros l Hl. apply Forall_forall. now apply forallb_forall. }
    apply Forall_app; split.
    { destruct (match providedName with
                | Some (c :: n) => c :: n
                | _ => meetingName st
                end); [constructor|].
      apply Forall_app. split; [|now apply Hconst].
      apply filename_unit_weaken, sanitized_safe. }
    apply Forall_app; split;
      [apply filename_unit_weaken, two_digits_safe; lia|].
    apply Forall_app; split; [now apply Hconst|].
    apply Forall_app; split;
      [apply filename_unit_weaken, two_digits_safe; lia|].
    apply Forall_app; split; [now apply Hconst|].
    apply Forall_app; split;
      [apply filename_unit_weaken, four_digits_safe; lia|].
    apply Forall_app; split; [now apply Hconst|].
    apply Forall_app; split; [|now apply Hconst].
    apply Forall_app; split;
      [apply filename_unit_weaken, two_digits_safe; lia|].
    apply Forall_app; split; [now apply Hconst|].
    apply Forall_app; split;
      [apply filename_unit_weaken, two_digits_safe; lia|].
    apply Forall_app; split; [now apply Hconst|].
    destruct (Z.leb 12 (getHours now)); now apply Hconst.
  - intros n. rewrite replace_unsafe. split.
    + induction n as [|c n IH]; [reflexivity|].
      cbn [flat_map]. rewrite length_app, IH.
      now destruct (negb (mem filename_class c)).
    + induction 1 as [|c n Hc _ IH]; [reflexivity|].
      cbn [flat_map]. rewrite Hc. cbn [negb app]. now rewrite IH.
Qed.

Lemma filename_safe_witness :
  Forall (fun c => mem filename_class c || N.eqb c (chr ".") = true)
         (filename (generateCSV (Some (str "Stand-up: 1/2")) morning
                                initial_state)).
Proof.
  exact (proj1 (@filename_safe (Some (str "Stand-up: 1/2")) morning
                  initial_state eq_refl)).
Defined.

(** * Properties of popup.js *)

Import Popup.

(** X22.  After [refreshUI] with a status, whatever the popup showed
    before, exactly one of Start, Resume and Stop can be used: Stop while
    the ledger runs, Resume when it is stopped with a session started or a
    record held, Start otherwise.  The name input is locked exactly while
    the ledger runs, and the counter shows the count. *)
Theorem refreshUI_buttons (s : Status) (ui : UI) :
  let ui' := refreshUI (Some s) ui in
  buttons ui'
  = (if status_isRunning s then (false, false, true)
     else if sessionStarted s || Nat.ltb 0 (count s) then (false, true, false)
          else (true, false, false)) /\
  meetingNameInput_disabled ui' = status_isRunning s /\
  countText_textContent ui' = String_ (Z.of_nat (count s)).
Proof.
  cbn zeta. unfold refreshUI, buttons. cbv zeta.
  destruct (status_isRunning s); [repeat split|].
  destruct (sessionStarted s || Nat.ltb 0 (count s)); repeat split.
Qed.

(** X23.  Refreshing twice with the same response is refreshing once, a
    null response changes nothing, and a name that the user has typed is
    never overwritten by the session's name. *)
Theorem refreshUI_polling (state : option Status) (ui : UI) :
  refreshUI state (refreshUI state ui) = refreshUI state ui /\
  refreshUI None ui = ui /\
  (meetingNameInput_value ui <> [] ->
   meetingNameInput_value (refreshUI state ui) = meetingNameInput_value ui).
Proof.
  split; [|split; [reflexivity|]].
  - destruct state as [s|]; [|reflexivity].
    unfold refreshUI. cbv zeta.
    destruct (status_isRunning s);
      [|destruct (sessionStarted s || Nat.ltb 0 (count s))];
      cbn; destruct (status_meetingName s), (meetingNameInput_value ui);
      reflexivity.
  - intros Hv. destruct state as [s|]; [|reflexivity].
    unfold refreshUI. cbv zeta.
    destruct (status_isRunning s);
      [|destruct (sessionStarted s || Nat.ltb 0 (count s))];
      cbn; destruct (status_meetingName s), (meetingNameInput_value ui);
      auto; congruence.
Qed.

Lemma refreshUI_polling_witness :
  meetingNameInput_value
    (refreshUI (Some (getStatus (run sample_session initial_state)))
       {| startBtn_display := []; startBtn_disabled := false;
          resumeBtn_display := []; resumeBtn_disabled := false;
          stopBtn_disabled := false; meetingNameInput_disabled := false;
          meetingNameInput_value := str "Physics";
          statusIndicator_textContent := [];
          statusIndicator_className := []; countText_textContent := [] |})
  = str "Physics".
Proof.
  apply refreshUI_polling. discriminate.
Defined.

(** X24.  [sendMessage] talks to pages of Google Meet only: with any other
    active tab it makes no call, returns null and shows the invalid-page
    error.  On a Meet page it sends the command once; it injects the
    content script only after a connection error of that send, at most
    once, and sends again only after that injection.  A response leaves the
    popup as it was; null comes with an error shown as inactive. *)
Theorem sendMessage_calls
        (tab : option Tab) (first : Outcome Response)
        (injection : Outcome unit) (second : Outcome Response)
        (action : Action) (meetingName : option jsstring) (ui : UI) :
  let result := fst (fst (sendMessage tab first injection second
                                      action meetingName ui)) in
  let ui' := snd (fst (sendMessage tab first injection second
                                   action meetingName ui)) in
  let calls := snd (sendMessage tab first injection second
                                action meetingName ui) in
  (on_meet tab = false ->
   calls = [] /\ result = None /\
   statusIndicator_textContent ui' = str "Error: Invalid Page (Meet Only)") /\
  (on_meet tab = true ->
   exists t, tab = Some t /\
     let send := SendMessage (tab_id t) action meetingName in
     let inject := ExecuteScript (tab_id t) in
     (calls = [send] \/ calls = [send; inject]
      \/ calls = [send; inject; send]) /\
     (In inject calls ->
      exists message,
        first = Rejected message /\
        includes (str "Could not establish connection") message
        || includes (str "Receiving end does not exist") message = true) /\
     (calls = [send; inject; send] -> exists u, injection = Resolved u)) /\
  (forall r, result = Some r ->
             ui' = ui /\ (first = Resolved r \/ second = Resolved r)) /\
  (result = None ->
   statusIndicator_className ui' = str "badge inactive" /\
   startsWith (str "Error") (statusIndicator_textContent ui') = true).
Proof.
  cbn zeta. unfold sendMessage, on_meet.
  destruct tab as [[id [[|c url]|]]|]; cbn [tab_url tab_id fst snd];
    try (repeat split; intros; try discriminate; reflexivity).
  destruct (startsWith (str "https://meet.google.com/") (c :: url)) eqn:Hm;
    cbn [negb fst snd].
  2:{ repeat split; intros; try discriminate; reflexivity. }
  split; [discriminate|]. 
  destruct first as [r1|message]; cbn [fst snd].
  { split; [|split; [|discriminate]].
    - intros _. eexists. split; [reflexivity|]. cbv zeta.
      split; [now left|]. split.
      + intros [H|[]]. discriminate.
      + discriminate.
    - intros r [= <-]. auto. }
  destruct (includes (str "Could not establish connection") message
            || includes (str "Receiving end does not exist") message) eqn:Hc;
    cbn [fst snd].
  2:{ split; [|split; [discriminate|]].
      - intros _. eexists. split; [reflexivity|]. cbv zeta.
        split; [now left|]. split.
        + intros [H|[]]. discriminate.
        + discriminate.
      - intros _. split; reflexivity. }
  destruct injection as [u|m2]; [destruct second as [r2|m3]|]; cbn [fst snd].
  - split; [|split; [|discriminate]].
    + intros _. eexists. split; [reflexivity|]. cbv zeta.
      split; [now right; right|]. split; [|now exists u].
      intros _. now exists message.
    + intros r [= <-]. auto.
  - split; [|split; [discriminate|]].
    + intros _. eexists. split; [reflexivity|]. cbv zeta.
      split; [now right; right|]. split; [|now exists u].
      intros _. now exists message.
    + intros _. split; reflexivity.
  - split; [|split; [discriminate|]].
    + intros _. eexists. split; [reflexivity|]. cbv zeta.
      split; [now right; left|]. split; [|discriminate].
      intros _. now exists message.
    + intros _. split; reflexivity.
Qed.

Lemma sendMessage_calls_witness :
  on_meet (Some {| tab_id := 7;
                   tab_url := Some (str "https://example.com/meet") |}) = false /\
  snd (sendMessage
         (Some {| tab_id := 7;
                  tab_url := Some (str "https://example.com/meet") |})
         (Resolved (StatusResponse (getStatus initial_state)))
         (Resolved tt)
         (Resolved (StatusResponse (getStatus initial_state)))
         RESTART None
         {| startBtn_display := []; startBtn_disabled := false;
            resumeBtn_display := []; resumeBtn_disabled := false;
            stopBtn_disabled := false; meetingNameInput_disabled := false;
            meetingNameInput_value := [];
            statusIndicator_textContent := [];
            statusIndicator_className := []; countText_textContent := [] |})
  = [].
Proof.
  split; [reflexivity|].
  match goal with
  | |- snd (sendMessage ?t ?f ?i ?s ?a ?n ?u) = [] =>
      destruct (sendMessage_calls t f i s a n u) as [H _];
      exact (proj1 (H eq_refl))
  end.
Defined.

(** X25.  An export that reaches the content script always saves a file,
    also when the ledger holds no record: the CSV text is never empty, so
    the alert of [handleExport] is shown only when no response came. *)
Theorem export_saves
        (tab : option Tab) (injection : Outcome unit)
        (second : Outcome Response)
        (name : option jsstring) (now : JSDate) (st : State) (ui : UI) :
  on_meet tab = true ->
  exportEffect
    (fst (fst (sendMessage tab
                 (Resolved
                    (snd (onMessage {| action := EXPORT;
                                       request_meetingName := name |}
                                    now st)))
                 injection second EXPORT name ui)))
  = Download (csvContent (generateCSV name now st))
             (filename (generateCSV name now st)).
Proof.
  unfold on_meet, sendMessage.
  destruct tab as [[id [[|c url]|]]|]; cbn [tab_url tab_id];
    try discriminate.
  intros ->. cbn [negb fst snd onMessage action request_meetingName].
  unfold exportEffect.
  pose proof (csv_header_first name now st) as H.
  destruct (csvContent (generateCSV name now st)); [discriminate|reflexivity].
Qed.

Lemma export_saves_witness :
  exportEffect
    (fst (fst (sendMessage
                 (Some {| tab_id := 7;
                          tab_url := Some (str "https://meet.google.com/abc-defg-hij") |})
                 (Resolved
                    (snd (onMessage {| action := EXPORT;
                                       request_meetingName := Some [] |}
                                    evening initial_state)))
                 (Resolved tt) (Rejected []) EXPORT (Some [])
                 {| startBtn_display := []; startBtn_disabled := false;
                    resumeBtn_display := []; resumeBtn_disabled := false;
                    stopBtn_disabled := false;
                    meetingNameInput_disabled := false;
                    meetingNameInput_value := [];
                    statusIndicator_textContent := [];
                    statusIndicator_className := [];
                    countText_textContent := [] |})))
  = Download (str "Name,Email,Time,Date") (str "17-12-2026_09-05-PM.csv").
Proof.
  match goal with
  | |- exportEffect (fst (fst (sendMessage ?t _ ?i ?s _ ?n ?u))) = _ =>
      exact (@export_saves t i s n evening initial_state u eq_refl)
  end.
Defined.

(** X26.  The buttons after a command has been answered by the content
    script: after [START] only Stop can be used; after [RESTART] only
    Start; after [STOP] Resume when the session has a start timestamp or a
    record, and Start otherwise. *)
Theorem buttons_after_commands
        (st : State) (now : JSDate) (name : option jsstring) (ui : UI) :
  buttons (refreshUI (Some (snd (startAttendance name now st))) ui)
  = (false, false, true) /\
  buttons (refreshUI (Some (snd (restartAttendance st))) ui)
  = (true, false, false) /\
  buttons (refreshUI (Some (snd (stopAttendance st))) ui)
  = (if truthy_time (startTimestamp st)
        || Nat.ltb 0 (length (attendanceMap st))
     then (false, true, false) else (true, false, false)).
Proof.
  split; [|split].
  - unfold startAttendance.
    destruct (isRunning st) eqn:Hr; cbn [snd]; unfold refreshUI, getStatus;
      cbn [status_isRunning isRunning]; rewrite ?Hr; reflexivity.
  - reflexivity.
  - unfold stopAttendance, refreshUI, getStatus, buttons.
    cbn [snd status_isRunning sessionStarted count isRunning startTimestamp
           attendanceMap]. cbv zeta.
    now destruct (truthy_time (startTimestamp st)
                  || Nat.ltb 0 (length (attendanceMap st))).
Qed.
